(** * Route partitioning and build orchestration of [remix-dev/vite/build.ts]

    A shallow embedding of [getLeafRoutes], [getRouteMatches],
    [getServerBundles], [cleanServerBuildDirectory] and [build], with the
    properties of the route-manifest model, the bundle assigner, the output
    directory guard and the orchestrator. *)

From Stdlib Require Import Ascii String NArith.
From stdpp Require Import base option list strings gmap sorting.

Local Open Scope string_scope.
Local Open Scope list_scope.

(** ** Data model *)

(** Modelled from the spec: the [ConfigRoute] type of [config/routes.ts] is
    not part of the sources at hand.  A route has a unique [id], an optional
    [parentId] ([None] stands for an absent or [undefined] property) and
    opaque metadata, represented by the [file] it was read from. *)
Record ConfigRoute : Type := mkRoute {
  id : string;
  parentId : option string;
  file : string;
}.

#[global] Instance ConfigRoute_eq_dec : EqDecision ConfigRoute.
Proof. solve_decision. Defined.

(** What a property read such as [routes[id]] can yield: a route of the
    manifest, or, for a name the manifest does not define itself, the member
    of [Object.prototype] of that name (a function such as [toString]),
    which is truthy and has neither an [id] nor a [parentId]. *)
Inductive Match : Type :=
  | Route (r : ConfigRoute)
  | Inherited (name : string).

#[global] Instance Match_eq_dec : EqDecision Match.
Proof. solve_decision. Defined.

#[global] Instance Route_inj : Inj (=) (=) Route.
Proof. by intros r1 r2 [= ->]. Qed.

Definition matchId (m : Match) : option string :=
  match m with
  | Route r => Some (id r)
  | Inherited _ => None
  end.

Definition matchParentId (m : Match) : option string :=
  match m with
  | Route r => parentId r
  | Inherited _ => None
  end.

(** The property key made of a [string | undefined]. *)
Definition propertyKey (k : option string) : string :=
  match k with
  | Some s => s
  | None => "undefined"
  end.

(** [match.id] as the key of [routes[match.id]]. *)
Definition matchKey (m : Match) : string := propertyKey (matchId m).

(** String-keyed entries in the order in which their keys were first set:
    the entries of a [Map<string, V>], which is iterated in that order, and
    the own properties of an object in the order of their creation (an
    object is enumerated in the order of [JSObject.enumerate]).  A key
    occurs at most once in a dictionary built with [set]. *)
Module ODict.

Abbreviation t V := (list (string * V)) (only parsing).

Definition keys {V} (d : t V) : list string := d.*1.

Definition values {V} (d : t V) : list V := d.*2.

Fixpoint get {V} (d : t V) (k : string) : option V :=
  match d with
  | [] => None
  | (k', v) :: d' => if decide (k' = k) then Some v else get d' k
  end.

(** An existing key keeps its place and gets the new value, a new key goes
    last. *)
Fixpoint set {V} (d : t V) (k : string) (v : V) : t V :=
  match d with
  | [] => [(k, v)]
  | (k', v') :: d' =>
      if decide (k' = k) then (k', v) :: d' else (k', v') :: set d' k v
  end.

End ODict.

(** Plain JavaScript objects, as far as the code depends on the language:
    the order in which [for...in] visits the properties, the members every
    object inherits from [Object.prototype], and the assignment to
    [__proto__]. *)
Module JSObject.

Definition digit (c : ascii) : option N :=
  let n := N_of_ascii c in
  if decide ((48 ≤ n)%N /\ (n ≤ 57)%N) then Some (n - 48)%N else None.

Fixpoint digits (acc : N) (s : string) : option N :=
  match s with
  | EmptyString => Some acc
  | String c s' =>
      match digit c with
      | Some d => digits (acc * 10 + d)%N s'
      | None => None
      end
  end.

(** An array index: the canonical decimal form (no sign, no leading zero)
    of an integer below [2^32 - 1]. *)
Definition arrayIndex (k : string) : option N :=
  match k with
  | EmptyString => None
  | String "0" EmptyString => Some 0%N
  | String "0" _ => None
  | _ =>
      match digits 0 k with
      | Some n => if decide (n < 4294967295)%N then Some n else None
      | None => None
      end
  end.

Definition indexed {V} (d : ODict.t V) : list (N * (string * V)) :=
  omap (fun e => (fun n => (n, e)) <$> arrayIndex e.1) d.

Definition byIndex {V} : relation (N * (string * V)) :=
  fun x y => (x.1 ≤ y.1)%N.

#[global] Instance byIndex_dec {V} (x y : N * (string * V)) :
  Decision (byIndex x y).
Proof. unfold byIndex. apply _. Defined.

#[global] Instance byIndex_total {V} : Total (@byIndex V).
Proof. intros x y. unfold byIndex. lia. Qed.

#[global] Instance byIndex_trans {V} : Transitive (@byIndex V).
Proof. intros x y z. unfold byIndex. lia. Qed.

(** The own properties of an object in the order in which the language
    lists them, [d] being the order of their creation: the keys that are
    array indices, in ascending numeric order, then the other keys in the
    order of creation. *)
Definition enumerate {V} (d : ODict.t V) : ODict.t V :=
  (merge_sort byIndex (indexed d)).*2
  ++ filter (fun e => arrayIndex e.1 = None) d.

(** The names of the properties of [Object.prototype], which a plain
    object inherits. *)
Definition objectPrototypeKeys : list string :=
  ["constructor"; "__defineGetter__"; "__defineSetter__"; "hasOwnProperty";
   "__lookupGetter__"; "__lookupSetter__"; "isPrototypeOf";
   "propertyIsEnumerable"; "toString"; "valueOf"; "__proto__";
   "toLocaleString"].

(** An object created by [{}]: its own properties, in the order of their
    creation, and the value made its prototype by an assignment to
    [__proto__], if any ([None]: the prototype is [Object.prototype]). *)
Record t (V : Type) : Type := mk {
  props : ODict.t V;
  proto : option V;
}.
Arguments mk {V} props proto.
Arguments props {V} _.
Arguments proto {V} _.

Definition empty {V} : t V := mk [] None.

(** The own property [k] of [o]. *)
Definition get {V} (o : t V) (k : string) : option V := ODict.get (props o) k.

(** [o[k] = v]: the property is created or updated, except that
    [__proto__], unless the object has an own property of that name, is the
    accessor inherited from [Object.prototype], whose setter makes [v] the
    prototype of [o] and creates no property. *)
Definition assign {V} (o : t V) (k : string) (v : V) : t V :=
  if decide (k = "__proto__" /\ ODict.get (props o) k = None)
  then mk (props o) (Some v)
  else mk (ODict.set (props o) k v) (proto o).

End JSObject.

(** [RouteManifest]: a plain object (its prototype is [Object.prototype])
    whose own properties map route ids to routes; the entries stand in the
    order in which the properties were created (the insertion order). *)
Abbreviation RouteManifest := (ODict.t ConfigRoute).

(** [routes[k]]: the own property, or else the inherited member. *)
Definition lookup (routes : RouteManifest) (k : string) : option Match :=
  match ODict.get routes k with
  | Some r => Some (Route r)
  | None =>
      if decide (k ∈ JSObject.objectPrototypeKeys) then Some (Inherited k)
      else None
  end.

(** The entries of a manifest as values, and the manifest as an object of
    values. *)
Definition asMatches (routes : RouteManifest) : ODict.t Match :=
  (fun e : string * ConfigRoute => (e.1, Route e.2)) <$> routes.

Definition manifestObject (routes : RouteManifest) : JSObject.t Match :=
  JSObject.mk (asMatches routes) None.

(** JavaScript truthiness of a [string | undefined]: [undefined] and the
    empty string are falsy. *)
Definition truthy (s : option string) : option string :=
  match s with
  | Some k => if decide (k = "") then None else Some k
  | None => None
  end.

(** ** [getLeafRoutes] *)

(** [for (let id in routes)] visits the own properties in the order of
    [JSObject.enumerate] ([Object.prototype] has no enumerable property),
    and [routes[id]] is then the own property. *)

(** The first loop: the set of all [parentId]s that are strings. *)
Definition collectParentIds (routes : RouteManifest) : gset string :=
  foldl (fun (parentIds : gset string) (e : string * ConfigRoute) =>
           match parentId e.2 with
           | Some p => {[ p ]} ∪ parentIds
           | None => parentIds
           end) ∅ (JSObject.enumerate routes).

(** The second loop pushes [routes[id]] for every key outside the set. *)
Definition getLeafRoutes (routes : RouteManifest) : list ConfigRoute :=
  let parentIds := collectParentIds routes in
  foldl (fun (leafRoutes : list ConfigRoute) (e : string * ConfigRoute) =>
           if decide (e.1 ∈ parentIds) then leafRoutes
           else leafRoutes ++ [e.2]) [] (JSObject.enumerate routes).

(** ** [getRouteMatches] *)

(** What a call can do: return, throw the [invariant] error for a route id,
    or throw the [RangeError] ("Invalid array length") of a [push] onto an
    array that is full. *)
Inductive outcome (A : Type) : Type :=
  | Ok (a : A)
  | MissingRoute (routeId : string)
  | InvalidArrayLength.
Arguments Ok {A} a.
Arguments MissingRoute {A} routeId.
Arguments InvalidArrayLength {A}.

Definition obind {A B} (x : outcome A) (f : A -> outcome B) : outcome B :=
  match x with
  | Ok a => f a
  | MissingRoute k => MissingRoute k
  | InvalidArrayLength => InvalidArrayLength
  end.

Notation "x ← y ;;; z" := (obind y (fun x => z))
  (at level 20, y at level 100, z at level 200, only parsing).

(** The [while (currentRouteId)] loop.  [capacity] is the number of
    elements [result] can still take: the [invariant] on [routes[k]] comes
    first, then the [push], which throws once the array is full. *)
Fixpoint walk (capacity : nat) (routes : RouteManifest)
    (currentRouteId : option string) (result : list Match)
    : outcome (list Match) :=
  match truthy currentRouteId with
  | None => Ok (reverse result)
  | Some k =>
      match lookup routes k with
      | None => MissingRoute k
      | Some m =>
          match capacity with
          | 0 => InvalidArrayLength
          | S capacity' =>
              walk capacity' routes (matchParentId m) (result ++ [m])
          end
      end
  end.

(** The largest array of the engine is far longer than any manifest: a loop
    that has pushed more values than the manifest has routes, and one more
    for an inherited member, is on a cycle of parent links and goes on until
    the array is full.  The result is the same for every capacity above the
    number of routes ([walk_capacity]); the least one is taken here. *)
Definition getRouteMatches (routes : RouteManifest) (routeId : string)
    : outcome (list Match) :=
  walk (S (length routes)) routes (Some routeId) [].

(** ** Paths

    A model of the POSIX flavour of Node's [path] module, at the level of
    path segments: what [path.join], [path.relative] and [path.isAbsolute]
    return. *)
Module path.

(** The pieces of [s] between the ['/'] separators. *)
Fixpoint segmentsFrom (cur : string) (s : string) : list string :=
  match s with
  | EmptyString => [cur]
  | String c s' =>
      if decide (c = "/"%char) then cur :: segmentsFrom "" s'
      else segmentsFrom (cur +:+ String c "") s'
  end.

Definition segments (s : string) : list string := segmentsFrom "" s.

Fixpoint joinSegments (l : list string) : string :=
  match l with
  | [] => ""
  | [x] => x
  | x :: l' => x +:+ "/" +:+ joinSegments l'
  end.

Definition isAbsolute (p : string) : bool :=
  match p with
  | String c _ => bool_decide (c = "/"%char)
  | EmptyString => false
  end.

Definition endsWithSep (p : string) : bool :=
  match last (segments p) with
  | Some seg => bool_decide (seg = "" ∧ p ≠ "")
  | None => false
  end.

(** One segment of [normalizeString]: empty and ["."] segments vanish,
    [".."] removes the previous segment unless there is none or it is
    [".."] itself, in which case it is kept only above a relative path. *)
Definition normalizeStep (allowAboveRoot : bool) (res : list string)
    (seg : string) : list string :=
  if decide (seg = "") then res
  else if decide (seg = ".") then res
  else if decide (seg = "..") then
    match last res with
    | Some top =>
        if decide (top = "..")
        then (if allowAboveRoot then res ++ [".."] else res)
        else removelast res
    | None => if allowAboveRoot then res ++ [".."] else res
    end
  else res ++ [seg].

Definition normalizeSegments (allowAboveRoot : bool) (p : string)
    : list string :=
  foldl (normalizeStep allowAboveRoot) [] (segments p).

Definition normalize (p : string) : string :=
  if decide (p = "") then "."
  else
    let abs := isAbsolute p in
    let trailing := endsWithSep p in
    let body := joinSegments (normalizeSegments (negb abs) p) in
    if decide (body = "") then
      (if abs then "/" else if trailing then "./" else ".")
    else
      (if abs then "/" else "") +:+ body +:+ (if trailing then "/" else "").

(** [path.join(a, b)]: the non-empty arguments, separated by ['/'], then
    normalised. *)
Definition join (a b : string) : string :=
  match filter (fun x => x ≠ "") [a; b] with
  | [] => "."
  | parts => normalize (joinSegments parts)
  end.

(** [path.resolve(p)] in the working directory [cwd] (itself absolute):
    the normalised segments of the absolute path. *)
Definition resolveSegments (cwd p : string) : list string :=
  if isAbsolute p then normalizeSegments false p
  else normalizeSegments false (cwd +:+ "/" +:+ p).

Fixpoint dropCommon (from to : list string) : list string * list string :=
  match from, to with
  | f :: from', t :: to' =>
      if decide (f = t) then dropCommon from' to' else (from, to)
  | _, _ => (from, to)
  end.

(** [path.relative(from, to)]: one [".."] for every segment of [from]
    below the common ancestor, then what is left of [to]. *)
Definition relative (cwd from to : string) : string :=
  let '(up, down) :=
    dropCommon (resolveSegments cwd from) (resolveSegments cwd to) in
  joinSegments (((fun _ => "..") <$> up) ++ down).

End path.

(** [String.prototype.startsWith]. *)
Definition startsWith (prefix s : string) : bool := String.prefix prefix s.

(** ** Configuration records *)

Module ServerBuildConfig.

Record t : Type := mk {
  routes : JSObject.t Match;
  serverBuildDirectory : string;
}.

#[global] Instance routes_eq_dec : EqDecision (JSObject.t Match).
Proof. solve_decision. Defined.

#[global] Instance eq_dec : EqDecision t.
Proof. solve_decision. Defined.

End ServerBuildConfig.

(** The user's [serverBundleDirectory] function, applied to
    [{ route, matches }]. *)
Definition BundleClassifier : Type := ConfigRoute -> list Match -> string.

Module ResolvedRemixVitePluginConfig.

Record t : Type := mk {
  routes : RouteManifest;
  rootDirectory : string;
  serverBuildDirectory : string;
  serverBundleDirectory : option BundleClassifier;
}.

End ResolvedRemixVitePluginConfig.

Module SBC := ServerBuildConfig.
Module RPC := ResolvedRemixVitePluginConfig.

(** ** [getServerBundles] *)

(** [for (let match of matches) serverBuildConfig.routes[match.id] = match]. *)
Definition mergeMatches (routes : JSObject.t Match) (matches : list Match)
    : JSObject.t Match :=
  foldl (fun rs m => JSObject.assign rs (matchKey m) m) routes matches.

(** One iteration of the loop over the leaf routes.  The bundle found in
    (or added to) the [Map] is updated where it stands. *)
Definition assignLeaf (routes : RouteManifest) (serverBuildDirectory : string)
    (getServerBundleDirectory : BundleClassifier)
    (serverBundles : ODict.t SBC.t) (route : ConfigRoute)
    : outcome (ODict.t SBC.t) :=
  matches ← getRouteMatches routes (id route) ;;;
  let serverBundleDirectory :=
    path.join serverBuildDirectory (getServerBundleDirectory route matches) in
  let serverBuildConfig :=
    match ODict.get serverBundles serverBundleDirectory with
    | Some c => c
    | None => SBC.mk JSObject.empty serverBundleDirectory
    end in
  Ok (ODict.set serverBundles serverBundleDirectory
        (SBC.mk (mergeMatches (SBC.routes serverBuildConfig) matches)
                (SBC.serverBuildDirectory serverBuildConfig))).

Fixpoint assignLeaves (routes : RouteManifest) (serverBuildDirectory : string)
    (getServerBundleDirectory : BundleClassifier)
    (serverBundles : ODict.t SBC.t) (leaves : list ConfigRoute)
    : outcome (ODict.t SBC.t) :=
  match leaves with
  | [] => Ok serverBundles
  | route :: leaves' =>
      serverBundles' ← assignLeaf routes serverBuildDirectory
                         getServerBundleDirectory serverBundles route ;;;
      assignLeaves routes serverBuildDirectory getServerBundleDirectory
        serverBundles' leaves'
  end.

Definition getServerBundles (cfg : RPC.t) : outcome (list SBC.t) :=
  match RPC.serverBundleDirectory cfg with
  | None =>
      Ok [SBC.mk (manifestObject (RPC.routes cfg))
            (RPC.serverBuildDirectory cfg)]
  | Some getServerBundleDirectory =>
      serverBundles ← assignLeaves (RPC.routes cfg)
                        (RPC.serverBuildDirectory cfg)
                        getServerBundleDirectory []
                        (getLeafRoutes (RPC.routes cfg)) ;;;
      Ok (ODict.values serverBundles)
  end.

(** ** [cleanServerBuildDirectory]: the decision *)

Definition isWithinRoot (cwd rootDirectory serverBuildDirectory : string)
    : bool :=
  let relativePath := path.relative cwd rootDirectory serverBuildDirectory in
  negb (startsWith ".." relativePath) && negb (path.isAbsolute relativePath).

(** [viteConfig.build.emptyOutDir ?? isWithinRoot()], where [None] is a
    [null] or [undefined] preference. *)
Definition shouldClean (cwd : string) (emptyOutDir : option bool)
    (cfg : RPC.t) : bool :=
  match emptyOutDir with
  | Some b => b
  | None => isWithinRoot cwd (RPC.rootDirectory cfg)
              (RPC.serverBuildDirectory cfg)
  end.

(** ** The orchestrator

    The asynchronous code of [build] is modelled by the trace of the external
    operations it starts and of the settlements it observes, up to the moment
    its own promise settles. *)

Inductive Op : Type :=
  | Remove (dir : string)
  | ViteBuild (serverBuildConfig : option SBC.t).

Inductive Event : Type :=
  | ConsoleError (message : string)
  | Invoked (op : Op)
  | Settled (op : Op) (error : option string).

Inductive BuildError : Type :=
  | InvariantError (routeId : string)
  | RangeError
  | OpError (op : Op) (message : string).

#[global] Instance Op_eq_dec : EqDecision Op.
Proof. solve_decision. Defined.
#[global] Instance Event_eq_dec : EqDecision Event.
Proof. solve_decision. Defined.
#[global] Instance BuildError_eq_dec : EqDecision BuildError.
Proof. solve_decision. Defined.

(** How an asynchronous computation ends: its promise is fulfilled, it is
    rejected, it stays pending for ever, or the process exits. *)
Inductive status (A : Type) : Type :=
  | Fulfilled (a : A)
  | Rejected (e : BuildError)
  | Pending
  | Exited (code : nat).
Arguments Fulfilled {A} a.
Arguments Rejected {A} e.
Arguments Pending {A}.
Arguments Exited {A} code.

(** The environment: the working directory, the results of [fse.remove] and
    [vite.build] (an error message, or [None] for success), and the order in
    which the server builds launched together settle (positions in the list
    of bundles). *)
Record World : Type := mkWorld {
  cwd : string;
  removeError : string -> option string;
  viteBuildError : option SBC.t -> option string;
  settleOrder : list nat;
}.

Definition opError (w : World) (op : Op) : option string :=
  match op with
  | Remove dir => removeError w dir
  | ViteBuild c => viteBuildError w c
  end.

Definition async (A : Type) : Type := list Event -> list Event * status A.

Definition aret {A} (a : A) : async A := fun tr => (tr, Fulfilled a).

Definition abind {A B} (x : async A) (f : A -> async B) : async B :=
  fun tr =>
    match x tr with
    | (tr', Fulfilled a) => f a tr'
    | (tr', Rejected e) => (tr', Rejected e)
    | (tr', Pending) => (tr', Pending)
    | (tr', Exited c) => (tr', Exited c)
    end.

Notation "'let*' x ':=' y 'in' z" := (abind y (fun x => z))
  (at level 10, x name, y at level 100, z at level 200, only parsing).
Notation "y ;; z" := (abind y (fun _ => z))
  (at level 100, z at level 200, only parsing, right associativity).

Definition emit (ev : Event) : async unit := fun tr => (tr ++ [ev], Fulfilled tt).

Definition throw {A} (e : BuildError) : async A := fun tr => (tr, Rejected e).

Definition exit {A} (code : nat) : async A := fun tr => (tr, Exited code).

Definition hang {A} : async A := fun tr => (tr, Pending).

(** The settlement of a started operation, as the awaiting code sees it. *)
Definition settle (w : World) (op : Op) : async unit :=
  match opError w op with
  | None => emit (Settled op None)
  | Some message => emit (Settled op (Some message)) ;; throw (OpError op message)
  end.

(** [await f(...)] for an external operation. *)
Definition await (w : World) (op : Op) : async unit :=
  emit (Invoked op) ;; settle w op.

(** A synchronous call that may throw. *)
Definition call {A} (x : outcome A) : async A :=
  match x with
  | Ok a => aret a
  | MissingRoute k => throw (InvariantError k)
  | InvalidArrayLength => throw RangeError
  end.

(** The resolved Vite configuration, as far as [build] reads it: the
    result of [vite.resolveConfig], which is taken to have returned. *)
Module ViteConfig.

Record t : Type := mk {
  emptyOutDir : option bool;
  remixPluginResolvedConfig : option RPC.t;
}.

End ViteConfig.

Definition extractRemixPluginConfig (viteConfig : ViteConfig.t) : async RPC.t :=
  match ViteConfig.remixPluginResolvedConfig viteConfig with
  | None =>
      emit (ConsoleError "Remix Vite plugin not found in Vite config") ;;
      exit 1
  | Some pluginConfig => aret pluginConfig
  end.

Definition cleanServerBuildDirectory (w : World) (viteConfig : ViteConfig.t)
    (pluginConfig : RPC.t) : async unit :=
  if shouldClean (cwd w) (ViteConfig.emptyOutDir viteConfig) pluginConfig
  then await w (Remove (RPC.serverBuildDirectory pluginConfig))
  else aret tt.

Definition viteBuild (w : World) (serverBuildConfig : option SBC.t)
    : async unit :=
  await w (ViteBuild serverBuildConfig).

(** [serverBundles.map(viteBuild)]: every server build is started, in the
    order of the list, before any of them is awaited. *)
Fixpoint launchAll (serverBundles : list SBC.t) : async unit :=
  match serverBundles with
  | [] => aret tt
  | c :: rest => emit (Invoked (ViteBuild (Some c))) ;; launchAll rest
  end.

(** [await Promise.all(promises)]: fulfilled once every promise is, rejected
    with the error of the first promise seen to fail.  [settled] holds the
    positions already settled; a position outside the list or already
    settled is passed over; should the order end with builds still running,
    the promise stays pending. *)
Fixpoint promiseAll (w : World) (launched : list SBC.t) (settled : gset nat)
    (order : list nat) : async unit :=
  if decide (size settled = length launched) then aret tt
  else
    match order with
    | [] => hang
    | i :: order' =>
        match launched !! i with
        | Some c =>
            if decide (i ∈ settled) then promiseAll w launched settled order'
            else settle w (ViteBuild (Some c)) ;;
                 promiseAll w launched ({[ i ]} ∪ settled) order'
        | None => promiseAll w launched settled order'
        end
    end.

Definition build (w : World) (viteConfig : ViteConfig.t) : async unit :=
  let* pluginConfig := extractRemixPluginConfig viteConfig in
  cleanServerBuildDirectory w viteConfig pluginConfig ;;
  viteBuild w None ;;
  let* serverBundles := call (getServerBundles pluginConfig) in
  launchAll serverBundles ;;
  promiseAll w serverBundles ∅ (settleOrder w).

(** ** Vocabulary of the properties *)

(** [k] is a leaf key: no route of the manifest names it as its parent. *)
Definition isLeafKey (routes : RouteManifest) (k : string) : Prop :=
  Forall (fun e : string * ConfigRoute => parentId e.2 ≠ Some k) routes.

#[global] Instance isLeafKey_dec routes k : Decision (isLeafKey routes k).
Proof. unfold isLeafKey. apply _. Defined.

(** The depth of a route: the number of parent links up to a route without
    parent. *)
Inductive Depth (routes : RouteManifest) : string -> nat -> Prop :=
  | Depth_root k r :
      ODict.get routes k = Some r -> parentId r = None -> Depth routes k 0
  | Depth_child k r p n :
      ODict.get routes k = Some r -> parentId r = Some p ->
      Depth routes p n -> Depth routes k (S n).

(** A well-formed manifest: every key occurs once and is the id of its
    route, no id is the empty string, and every route has a depth (its
    parent links stay inside the manifest and reach a root). *)
Record WellFormed (routes : RouteManifest) : Prop := mkWellFormed {
  wf_keys_unique : NoDup (ODict.keys routes);
  wf_key_is_id : forall k r, (k, r) ∈ routes -> id r = k;
  wf_ids_nonempty : "" ∉ ODict.keys routes;
  wf_depth : forall k, k ∈ ODict.keys routes -> exists n, Depth routes k n;
}.


(** How the loop of [getRouteMatches] ends. *)
Inductive WalkEnd : Type :=
  | AtRoot
  | AtMissing (k : string).

(** The loop of [getRouteMatches] as a relation: from [currentRouteId] it
    goes through the ids [visited] and the values read under them, target
    first, and ends as said. *)
Inductive Walk (routes : RouteManifest)
    : option string -> list (string * Match) -> WalkEnd -> Prop :=
  | Walk_done cur :
      truthy cur = None -> Walk routes cur [] AtRoot
  | Walk_missing cur k :
      truthy cur = Some k -> lookup routes k = None ->
      Walk routes cur [] (AtMissing k)
  | Walk_step cur k m visited e :
      truthy cur = Some k -> lookup routes k = Some m ->
      Walk routes (matchParentId m) visited e ->
      Walk routes cur ((k, m) :: visited) e.

(** The ids the walk from [routeId] looks up: the start, if it is not
    empty, and the non-empty parent id of every route found on the way. *)
Inductive Encounters (routes : RouteManifest) (routeId : string)
    : string -> Prop :=
  | Encounters_start : routeId ≠ "" -> Encounters routes routeId routeId
  | Encounters_parent k r p :
      Encounters routes routeId k -> ODict.get routes k = Some r ->
      parentId r = Some p -> p ≠ "" -> Encounters routes routeId p.

(** Two entries under array indices, the first with the lesser index (or
    the same). *)
Definition indexOrdered {V} (e1 e2 : string * V) : Prop :=
  match JSObject.arrayIndex e1.1, JSObject.arrayIndex e2.1 with
  | Some n1, Some n2 => (n1 ≤ n2)%N
  | _, _ => False
  end.

(** The keys of a list in the order of their first occurrence. *)
Fixpoint firstOccurrences (seen : list string) (l : list string)
    : list string :=
  match l with
  | [] => []
  | k :: l' =>
      if decide (k ∈ seen) then firstOccurrences seen l'
      else k :: firstOccurrences (k :: seen) l'
  end.

(** The match that a sequence of matches leaves under the key [i]: the last
    one with that key. *)
Definition lastUnder (ms : list Match) (i : string) : option Match :=
  last (filter (fun m => matchKey m = i) ms).

(** The bundles as a grouping: [keyed] lists, for every leaf in order, its
    bundle key and its match chain; the bundle of a key merges the chains
    of the leaves with that key, and the bundles come in the order in which
    their keys first occur. *)
Definition chainsOf (keyed : list (string * list Match)) (d : string)
    : list Match :=
  concat (filter (fun kc => kc.1 = d) keyed).*2.

Definition bundleOf (keyed : list (string * list Match)) (d : string)
    : SBC.t :=
  SBC.mk (mergeMatches JSObject.empty (chainsOf keyed d)) d.

Definition groupBundles (keyed : list (string * list Match))
    : list SBC.t :=
  bundleOf keyed <$> firstOccurrences [] keyed.*1.

(** The bundle key of a leaf. *)
Definition keyedLeaves (serverBuildDirectory : string) (f : BundleClassifier)
    (leaves : list ConfigRoute) (chains : list (list Match))
    : list (string * list Match) :=
  zip_with (fun leaf chain =>
              (path.join serverBuildDirectory (f leaf chain), chain))
    leaves chains.

(** The phases of a build, as an order on the events of its trace. *)
Definition phase (ev : Event) : nat :=
  match ev with
  | ConsoleError _ => 0
  | Invoked (Remove _) | Settled (Remove _) _ => 1
  | Invoked (ViteBuild None) | Settled (ViteBuild None) _ => 2
  | Invoked (ViteBuild (Some _)) | Settled (ViteBuild (Some _)) _ => 3
  end.

(** The events of the guard and of the client build, and the error of the
    guard, if any. *)
Definition guardTrace (w : World) (viteConfig : ViteConfig.t) (cfg : RPC.t)
    : list Event :=
  if shouldClean (cwd w) (ViteConfig.emptyOutDir viteConfig) cfg
  then [Invoked (Remove (RPC.serverBuildDirectory cfg));
        Settled (Remove (RPC.serverBuildDirectory cfg))
          (removeError w (RPC.serverBuildDirectory cfg))]
  else [].

Definition guardError (w : World) (viteConfig : ViteConfig.t) (cfg : RPC.t)
    : option string :=
  if shouldClean (cwd w) (ViteConfig.emptyOutDir viteConfig) cfg
  then removeError w (RPC.serverBuildDirectory cfg)
  else None.

Definition clientTrace (w : World) : list Event :=
  [Invoked (ViteBuild None); Settled (ViteBuild None) (viteBuildError w None)].

Definition launchTrace (serverBundles : list SBC.t) : list Event :=
  (fun c => Invoked (ViteBuild (Some c))) <$> serverBundles.

(** The settlements of the server builds at the positions [js], all
    successful. *)
Definition fulfilledTrace (serverBundles : list SBC.t) (js : list nat)
    : list Event :=
  (fun j => Settled (ViteBuild (serverBundles !! j)) None) <$> js.

(** What a walk returns. *)
Definition walkResult (acc : list Match)
    (visited : list (string * Match)) (e : WalkEnd)
    : outcome (list Match) :=
  match e with
  | AtRoot => Ok (reverse (acc ++ visited.*2))
  | AtMissing k => MissingRoute k
  end.


(** The [Map] of the loop, after the leaves of [keyed]. *)
Definition bundleMap (keyed : list (string * list Match))
    : ODict.t SBC.t :=
  (fun d => (d, bundleOf keyed d)) <$> firstOccurrences [] keyed.*1.


(** Two calls end the same way: both return, both throw for the same route
    id, or both throw for a full array. *)
Definition sameStatus {A B} (x : outcome A) (y : outcome B) : Prop :=
  match x, y with
  | Ok _, Ok _ => True
  | MissingRoute k, MissingRoute k' => k = k'
  | InvalidArrayLength, InvalidArrayLength => True
  | _, _ => False
  end.

(** A proper path segment: not empty, not ["."], no leading separator. *)
Definition properSegment (seg : string) : Prop :=
  seg ≠ "" /\ seg ≠ "." /\ path.isAbsolute seg = false.

(** ** Sample inputs *)

Definition sampleRoot : ConfigRoute := mkRoute "root" None "root.tsx".
Definition sampleA : ConfigRoute := mkRoute "a" (Some "root") "routes/a.tsx".
Definition sampleB : ConfigRoute := mkRoute "b" (Some "root") "routes/b.tsx".
Definition sampleManifest : RouteManifest :=
  [("root", sampleRoot); ("a", sampleA); ("b", sampleB)].


Definition orphanRoute : ConfigRoute := mkRoute "orphan" (Some "") "orphan.tsx".
Definition emptyParentManifest : RouteManifest :=
  [("root", sampleRoot); ("orphan", orphanRoute)].

Definition sampleChains : list (list Match) :=
  [[Route sampleRoot; Route sampleA]; [Route sampleRoot; Route sampleB]].

(** Leaf [a] goes to [zeta], leaf [b] to [alpha]. *)
Definition splitClassifier : BundleClassifier :=
  fun route _ => if decide (id route = "a") then "zeta" else "alpha".

Definition sharedClassifier : BundleClassifier := fun _ _ => "shared".

(** Leaf [a] is sent two levels above the server build directory. *)
Definition escapeClassifier : BundleClassifier :=
  fun route _ => if decide (id route = "a") then "../../elsewhere" else "b".

(** Two different suffixes with one normalised path. *)
Definition collideClassifier : BundleClassifier :=
  fun route _ => if decide (id route = "a") then "x" else "./x".

Definition sampleConfig (f : option BundleClassifier) : RPC.t :=
  RPC.mk sampleManifest "/proj" "/proj/build/server" f.


Definition bundleA : SBC.t :=
  SBC.mk (JSObject.mk [("root", Route sampleRoot); ("a", Route sampleA)] None)
    "/proj/build/server/a".
Definition bundleB : SBC.t :=
  SBC.mk (JSObject.mk [("root", Route sampleRoot); ("b", Route sampleB)] None)
    "/proj/build/server/b".

(** One bundle per leaf, named after it. *)
Definition perLeafClassifier : BundleClassifier := fun route _ => id route.

Definition perLeafViteConfig : ViteConfig.t :=
  ViteConfig.mk None (Some (sampleConfig (Some perLeafClassifier))).

(** Both server builds fail, each with its own message; the build of
    bundle [a] settles first. *)
Definition bothFailWorld : World :=
  mkWorld "/"
    (fun _ => None)
    (fun c =>
       match c with
       | None => None
       | Some c =>
           if decide (SBC.serverBuildDirectory c = "/proj/build/server/a")
           then Some "boom-a" else Some "boom-b"
       end)
    [0; 1].

(** A manifest whose leaf names a parent that is not there. *)
Definition ghostRoute : ConfigRoute :=
  mkRoute "child" (Some "ghost") "routes/child.tsx".
Definition corruptManifest : RouteManifest :=
  [("root", sampleRoot); ("child", ghostRoute)].
Definition corruptViteConfig : ViteConfig.t :=
  ViteConfig.mk None
    (Some (RPC.mk corruptManifest "/proj" "/proj/build/server"
             (Some perLeafClassifier))).
Definition quietWorld : World :=
  mkWorld "/" (fun _ => None) (fun _ => None) [0; 1].

(** A server build directory inside the project whose first directory has a
    name beginning with two dots. *)
Definition dottedConfig : RPC.t :=
  RPC.mk sampleManifest "/proj" "/proj/..cache/server" None.

(** A manifest with ids that are array indices, created in the order
    [root], [10], [9], [b]. *)
Definition route10 : ConfigRoute := mkRoute "10" (Some "root") "routes/10.tsx".
Definition route9 : ConfigRoute := mkRoute "9" (Some "root") "routes/9.tsx".
Definition numericManifest : RouteManifest :=
  [("root", sampleRoot); ("10", route10); ("9", route9); ("b", sampleB)].
Definition numericConfig : RPC.t :=
  RPC.mk numericManifest "/proj" "/proj/build/server" (Some perLeafClassifier).

(** A manifest whose leaf names as its parent an id that is absent from the
    manifest and is the name of a member of [Object.prototype]. *)
Definition strayRoute : ConfigRoute :=
  mkRoute "child" (Some "toString") "routes/child.tsx".
Definition strayManifest : RouteManifest :=
  [("root", sampleRoot); ("child", strayRoute)].

(** A manifest whose only route has the id [__proto__]. *)
Definition protoRoute : ConfigRoute := mkRoute "__proto__" None "proto.tsx".
Definition protoManifest : RouteManifest := [("__proto__", protoRoute)].
Definition protoConfig : RPC.t :=
  RPC.mk protoManifest "/proj" "/proj/build/server" (Some sharedClassifier).

(** ** Further vocabulary *)

(** One parent link followed by the loop of [getRouteMatches]: the route
    under [k] names the non-empty id [p] as its parent. *)
Definition ParentStep (routes : RouteManifest) (k p : string) : Prop :=
  k ≠ "" /\
  exists r, ODict.get routes k = Some r /\ parentId r = Some p /\ p ≠ "".

(** [ParentPath routes k ks k']: parent links lead from [k] to [k'], through
    the ids [ks] ([k] first, [k'] not included). *)
Inductive ParentPath (routes : RouteManifest)
    : string -> list string -> string -> Prop :=
  | ParentPath_nil k : ParentPath routes k [] k
  | ParentPath_cons k p ks k' :
      ParentStep routes k p -> ParentPath routes p ks k' ->
      ParentPath routes k (k :: ks) k'.

(** [k] is its own ancestor. *)
Definition OnCycle (routes : RouteManifest) (k : string) : Prop :=
  exists ks, ParentPath routes k (k :: ks) k.

(** The parent links from [s] lead into a cycle. *)
Definition ReachesCycle (routes : RouteManifest) (s : string) : Prop :=
  exists ks k, ParentPath routes s ks k /\ OnCycle routes k.

(** The properties made of one chain: the routes under their ids, in the
    order of the chain. *)
Definition chainEntries (chain : list ConfigRoute) : ODict.t Match :=
  (fun r => (id r, Route r)) <$> chain.

(** The settlements of the server builds at the positions [js], as the
    environment decides them. *)
Definition settledTrace (w : World) (serverBundles : list SBC.t)
    (js : list nat) : list Event :=
  (fun j => Settled (ViteBuild (serverBundles !! j))
              (viteBuildError w (serverBundles !! j))) <$> js.

Definition isRemoveEvent (ev : Event) : bool :=
  match ev with
  | Invoked (Remove _) | Settled (Remove _) _ => true
  | _ => false
  end.

(** A manifest with a cycle below a leaf: [x] and [y] name each other, the
    leaf [z] hangs under [x]. *)
Definition cyclicManifest : RouteManifest :=
  [("x", mkRoute "x" (Some "y") "x.tsx");
   ("y", mkRoute "y" (Some "x") "y.tsx");
   ("z", mkRoute "z" (Some "x") "z.tsx")].

Definition wholeConfig : RPC.t :=
  RPC.mk corruptManifest "/proj" "/proj/build/server" None.

(** Only the server build of bundle [b] fails; bundle [b] settles first. *)
Definition oneFailsWorld : World :=
  mkWorld "/"
    (fun _ => None)
    (fun c =>
       match c with
       | None => None
       | Some c =>
           if decide (SBC.serverBuildDirectory c = "/proj/build/server/b")
           then Some "boom-b" else None
       end)
    [1; 0].

(** * Properties *)

(** ** Dictionaries *)

Section ODictFacts.
Context {V : Type}.
Implicit Types (d : ODict.t V) (k : string) (v : V).

Lemma get_cons d k k' v :
  ODict.get ((k', v) :: d) k = if decide (k' = k) then Some v else ODict.get d k.
Proof. reflexivity. Qed.

Lemma set_cons d k k' v v' :
  ODict.set ((k', v') :: d) k v =
  if decide (k' = k) then (k', v) :: d else (k', v') :: ODict.set d k v.
Proof. reflexivity. Qed.

Lemma keys_cons d k v : ODict.keys ((k, v) :: d) = k :: ODict.keys d.
Proof. reflexivity. Qed.

Lemma get_Some_elem d k v : ODict.get d k = Some v -> (k, v) ∈ d.
Proof.
  induction d as [|[k' v'] d IH]; [done|].
  rewrite get_cons. case_decide; intros ?; simplify_eq; [left | right; auto].
Qed.

Lemma get_None_keys d k : ODict.get d k = None <-> k ∉ ODict.keys d.
Proof.
  induction d as [|[k' v'] d IH].
  - split; [intros _; apply not_elem_of_nil | done].
  - rewrite get_cons, keys_cons, not_elem_of_cons.
    case_decide; subst; [split; [done | intros [? _]; done]|].
    rewrite IH. split; [intros ?; split; [done|done] | intros [_ ?]; done].
Qed.

Lemma get_is_Some_keys d k : is_Some (ODict.get d k) <-> k ∈ ODict.keys d.
Proof.
  rewrite <-not_eq_None_Some, get_None_keys.
  destruct (decide (k ∈ ODict.keys d)) as [Hin|Hin]; split; try done.
  intros _ Hn. by apply Hn.
Qed.

Lemma elem_get d k v :
  NoDup (ODict.keys d) -> (k, v) ∈ d -> ODict.get d k = Some v.
Proof.
  induction d as [|[k' v'] d IH].
  - intros _ H. by apply elem_of_nil in H.
  - rewrite keys_cons, NoDup_cons, get_cons.
    intros [Hk Hnd] [H|H]%elem_of_cons.
    + simplify_eq. by rewrite decide_True.
    + rewrite decide_False; [auto|]. intros ->. apply Hk.
      apply list_elem_of_fmap. by exists (k, v).
Qed.

Lemma keys_set d k v :
  ODict.keys (ODict.set d k v) =
  if decide (k ∈ ODict.keys d) then ODict.keys d else ODict.keys d ++ [k].
Proof.
  induction d as [|[k' v'] d IH].
  - by rewrite decide_False by apply not_elem_of_nil.
  - rewrite set_cons, !keys_cons.
    destruct (decide (k' = k)) as [->|Hne].
    + by rewrite decide_True by left.
    + rewrite keys_cons, IH. destruct (decide (k ∈ ODict.keys d)) as [Hin|Hin].
      * by rewrite decide_True by (by right).
      * rewrite decide_False; [done|]. rewrite not_elem_of_cons.
        split; [congruence | done].
Qed.

Lemma get_set d k k' v :
  ODict.get (ODict.set d k v) k' =
  if decide (k = k') then Some v else ODict.get d k'.
Proof.
  induction d as [|[k0 v0] d IH].
  - reflexivity.
  - rewrite set_cons, get_cons.
    destruct (decide (k0 = k)) as [->|Hne].
    + rewrite get_cons. destruct (decide (k = k')); done.
    + rewrite get_cons, IH.
      destruct (decide (k0 = k')), (decide (k = k')); congruence.
Qed.

Lemma set_snoc d k v :
  k ∉ ODict.keys d -> ODict.set d k v = d ++ [(k, v)].
Proof.
  induction d as [|[k' v'] d IH]; [done|].
  rewrite keys_cons, not_elem_of_cons, set_cons. intros [? ?].
  rewrite decide_False by done. by rewrite IH.
Qed.



End ODictFacts.

(** ** The order of enumeration *)

Section EnumerateFacts.
Context {V : Type}.
Implicit Types (d : ODict.t V) (e : string * V).

Lemma elem_of_indexed d n e :
  (n, e) ∈ JSObject.indexed d <-> e ∈ d /\ JSObject.arrayIndex e.1 = Some n.
Proof.
  unfold JSObject.indexed. rewrite list_elem_of_omap. split.
  - intros (x & Hx & Hf). destruct (JSObject.arrayIndex x.1) as [m|] eqn:Hm;
      cbn in Hf; simplify_eq. done.
  - intros [Hin Hn]. exists e. split; [done|]. by rewrite Hn.
Qed.

Lemma indexed_snd d :
  (JSObject.indexed d).*2
  = filter (fun e => is_Some (JSObject.arrayIndex e.1)) d.
Proof.
  unfold JSObject.indexed. induction d as [|e d IH]; [done|].
  rewrite filter_cons. cbn [omap list_omap].
  destruct (JSObject.arrayIndex e.1) as [n|]; cbn [fmap option_fmap option_map].
  - rewrite decide_True by (by eexists). rewrite fmap_cons. by f_equal.
  - rewrite decide_False by (by intros [? ?]). done.
Qed.

Lemma indexed_no_index d :
  Forall (fun e => JSObject.arrayIndex e.1 = None) d -> JSObject.indexed d = [].
Proof.
  unfold JSObject.indexed. induction 1 as [|e d He _ IH]; [done|].
  cbn [omap list_omap]. by rewrite He.
Qed.

Lemma enumerate_Permutation d : JSObject.enumerate d ≡ₚ d.
Proof.
  unfold JSObject.enumerate. rewrite merge_sort_Permutation, indexed_snd.
  rewrite <-(filter_app_complement
               (fun e => is_Some (JSObject.arrayIndex e.1)) d) at 3.
  f_equiv. erewrite list_filter_iff; [done|]. intros e. cbn.
  by rewrite eq_None_not_Some.
Qed.

Lemma elem_of_enumerate d e : e ∈ JSObject.enumerate d <-> e ∈ d.
Proof. by rewrite enumerate_Permutation. Qed.

Lemma enumerate_no_index d :
  Forall (fun e => JSObject.arrayIndex e.1 = None) d ->
  JSObject.enumerate d = d.
Proof.
  intros Hd. unfold JSObject.enumerate. rewrite indexed_no_index by done.
  cbn. induction Hd as [|e d He _ IH]; [done|].
  rewrite filter_cons, decide_True by done. by f_equal.
Qed.

Lemma indexOrdered_snd (l : list (N * (string * V))) :
  StronglySorted JSObject.byIndex l ->
  Forall (fun x => JSObject.arrayIndex x.2.1 = Some x.1) l ->
  StronglySorted indexOrdered l.*2.
Proof.
  induction 1 as [|x l Hl IH Hx]; intros Hall; [constructor|].
  apply Forall_cons in Hall as [Hi Hall]. rewrite fmap_cons.
  constructor; [by apply IH|].
  apply Forall_fmap, Forall_forall. intros y Hy.
  rewrite Forall_forall in Hx. rewrite Forall_forall in Hall.
  unfold indexOrdered. cbn. rewrite Hi, (Hall y Hy). by apply Hx.
Qed.

(** The enumeration: the entries under array indices, in ascending order
    of the index, then the other entries in the order of creation. *)
Lemma enumerate_order d :
  exists indices,
    JSObject.enumerate d
    = indices ++ filter (fun e => JSObject.arrayIndex e.1 = None) d /\
    indices ≡ₚ filter (fun e => is_Some (JSObject.arrayIndex e.1)) d /\
    StronglySorted indexOrdered indices.
Proof.
  eexists. split_and!; [reflexivity | |].
  - by rewrite merge_sort_Permutation, indexed_snd.
  - apply indexOrdered_snd; [apply StronglySorted_merge_sort; apply _|].
    apply Forall_forall. intros [n e].
    rewrite merge_sort_Permutation, elem_of_indexed. by intros [_ ?].
Qed.

End EnumerateFacts.

(** ** Leaf routes *)

Lemma collectParentIds_from (routes : RouteManifest) (acc : gset string) p :
  p ∈ foldl (fun (parentIds : gset string) (e : string * ConfigRoute) =>
               match parentId e.2 with
               | Some q => {[ q ]} ∪ parentIds
               | None => parentIds
               end) acc routes
  <-> p ∈ acc \/ Exists (fun e => parentId e.2 = Some p) routes.
Proof.
  revert acc. induction routes as [|e routes IH]; intros acc; simpl.
  - rewrite Exists_nil. split; [auto | intros [?|[]]; done].
  - rewrite IH, Exists_cons. destruct (parentId e.2) as [q|].
    + rewrite elem_of_union, elem_of_singleton.
      split; [intros [[->|?]|?]; auto | intros [?|[?|?]]; simplify_eq; auto].
    + split; [intros [?|?]; auto | intros [?|[?|?]]; simplify_eq; auto].
Qed.

Lemma elem_of_collectParentIds (routes : RouteManifest) p :
  p ∈ collectParentIds routes <-> ¬ isLeafKey routes p.
Proof.
  unfold collectParentIds, isLeafKey. rewrite collectParentIds_from.
  split.
  - intros [H|H]; [by apply not_elem_of_empty in H|].
    apply Exists_not_Forall. apply Exists_exists in H as (e & Hin & He).
    apply Exists_exists. exists e. split; [by apply elem_of_enumerate|].
    intros Hne. by apply Hne.
  - intros H. right. apply not_Forall_Exists in H; [|intros e; apply _].
    apply Exists_exists in H as (e & Hin & He). apply Exists_exists.
    exists e. split; [by apply elem_of_enumerate|]. simpl in He.
    destruct (decide (parentId e.2 = Some p)) as [|Hne]; [done|].
    by destruct He.
Qed.

Lemma pushLeaves_from (S : gset string) (routes : RouteManifest) acc :
  foldl (fun (leafRoutes : list ConfigRoute) (e : string * ConfigRoute) =>
           if decide (e.1 ∈ S) then leafRoutes else leafRoutes ++ [e.2])
        acc routes
  = acc ++ (filter (fun e => e.1 ∉ S) routes).*2.
Proof.
  revert acc. induction routes as [|e routes IH]; intros acc; cbn [foldl].
  - by rewrite app_nil_r.
  - rewrite IH, filter_cons. destruct (decide (e.1 ∈ S)).
    + rewrite decide_False; [done|]. by intros ?.
    + rewrite decide_True by done. by rewrite fmap_cons, <-app_assoc.
Qed.

(** The leaves are the unreferenced routes, in the order of enumeration. *)
Lemma getLeafRoutes_enumerate (routes : RouteManifest) :
  getLeafRoutes routes
  = (filter (fun e => isLeafKey routes e.1) (JSObject.enumerate routes)).*2.
Proof.
  unfold getLeafRoutes. rewrite pushLeaves_from. simpl. f_equal.
  apply list_filter_iff. intros e. rewrite elem_of_collectParentIds.
  destruct (decide (isLeafKey routes e.1)); naive_solver.
Qed.

Lemma elem_of_getLeafRoutes (routes : RouteManifest) r :
  r ∈ getLeafRoutes routes <->
  exists k, (k, r) ∈ routes /\ isLeafKey routes k.
Proof.
  rewrite getLeafRoutes_enumerate, list_elem_of_fmap. split.
  - intros ([k r0] & -> & [Hleaf Hin]%list_elem_of_filter). exists k.
    split; [by apply elem_of_enumerate | done].
  - intros (k & Hin & Hleaf). exists (k, r). split; [done|].
    apply list_elem_of_filter. split; [done | by apply elem_of_enumerate].
Qed.

(** C6, as amended: [getLeafRoutes] keeps exactly the routes whose key no
    route names as its [parentId], in the order in which the language
    enumerates the manifest: the routes under array indices first, by
    ascending index, then the other routes in the order of insertion.
    For a manifest without array-index keys this is the order of
    insertion. *)
Theorem getLeafRoutes_exactly_unreferenced (routes : RouteManifest) :
  getLeafRoutes routes
  = (filter (fun e => isLeafKey routes e.1) (JSObject.enumerate routes)).*2
  /\ (forall r, r ∈ getLeafRoutes routes <->
        exists k, (k, r) ∈ routes /\
          forall k' r', (k', r') ∈ routes -> parentId r' ≠ Some k)
  /\ (exists indices,
        JSObject.enumerate routes
        = indices ++ filter (fun e => JSObject.arrayIndex e.1 = None) routes /\
        indices ≡ₚ filter (fun e => is_Some (JSObject.arrayIndex e.1)) routes /\
        StronglySorted indexOrdered indices)
  /\ (Forall (fun e => JSObject.arrayIndex e.1 = None) routes ->
      getLeafRoutes routes
      = (filter (fun e => isLeafKey routes e.1) routes).*2).
Proof.
  split_and!.
  - apply getLeafRoutes_enumerate.
  - intros r. rewrite elem_of_getLeafRoutes. unfold isLeafKey.
    setoid_rewrite Forall_forall. split.
    + intros (k & Hin & Hleaf). exists k. split; [done|].
      intros k' r' Hin'. apply (Hleaf (k', r') Hin').
    + intros (k & Hin & Hleaf). exists k. split; [done|].
      intros [k' r'] Hin'. by apply (Hleaf k' r').
  - apply enumerate_order.
  - intros Hno. by rewrite getLeafRoutes_enumerate, enumerate_no_index.
Qed.

(** C6 as stated fails on a manifest with array-index ids: created in the
    order [root], [10], [9], [b], its unreferenced routes are, in the order
    of insertion, [10], [9], [b]; the leaves come as [9], [10], [b]. *)
Lemma getLeafRoutes_numeric_ids_first :
  ODict.keys numericManifest = ["root"; "10"; "9"; "b"] /\
  (filter (fun e => isLeafKey numericManifest e.1) numericManifest).*2
  = [route10; route9; sampleB] /\
  getLeafRoutes numericManifest = [route9; route10; sampleB] /\
  getLeafRoutes numericManifest
  ≠ (filter (fun e => isLeafKey numericManifest e.1) numericManifest).*2.
Proof. split_and!; [reflexivity | reflexivity | reflexivity | discriminate]. Qed.
(** ** The parent walk *)

Lemma truthy_Some cur k : truthy cur = Some k <-> cur = Some k /\ k ≠ "".
Proof.
  unfold truthy. destruct cur as [s|]; [|split; [done | intros [? _]; done]].
  destruct (decide (s = "")) as [->|Hs]; split; intros Hx; simplify_eq.
  - by destruct Hx as [[= <-] ?].
  - done.
  - by destruct Hx as [[= ->] ?].
Qed.

Lemma truthy_nonempty k : k ≠ "" -> truthy (Some k) = Some k.
Proof. intros. by apply truthy_Some. Qed.

Section WalkFacts.
Variable routes : RouteManifest.

Lemma lookup_Route k r :
  lookup routes k = Some (Route r) <-> ODict.get routes k = Some r.
Proof.
  unfold lookup. destruct (ODict.get routes k) as [r'|].
  - split; intros ?; by simplify_eq.
  - case_decide; split; intros ?; by simplify_eq.
Qed.

Lemma lookup_Inherited k name :
  lookup routes k = Some (Inherited name) <->
  name = k /\ ODict.get routes k = None /\ k ∈ JSObject.objectPrototypeKeys.
Proof.
  unfold lookup. destruct (ODict.get routes k) as [r|].
  - split; [done | by intros (_ & ? & _)].
  - case_decide; split.
    + intros ?. by simplify_eq.
    + by intros (-> & _ & _).
    + done.
    + by intros (_ & _ & ?).
Qed.

Lemma lookup_None k :
  lookup routes k = None <->
  ODict.get routes k = None /\ k ∉ JSObject.objectPrototypeKeys.
Proof.
  unfold lookup. destruct (ODict.get routes k) as [r|].
  - split; [done | by intros [? _]].
  - case_decide; split; try done. by intros [_ ?].
Qed.

Lemma walk_unfold capacity cur acc :
  walk capacity routes cur acc =
  match truthy cur with
  | None => Ok (reverse acc)
  | Some k =>
      match lookup routes k with
      | None => MissingRoute k
      | Some m =>
          match capacity with
          | 0 => InvalidArrayLength
          | S capacity' => walk capacity' routes (matchParentId m) (acc ++ [m])
          end
      end
  end.
Proof. destruct capacity; reflexivity. Qed.

Lemma walk_sound cur visited e :
  Walk routes cur visited e ->
  forall capacity acc, (length visited ≤ capacity)%nat ->
    walk capacity routes cur acc = walkResult acc visited e.
Proof.
  induction 1 as [cur Hc|cur k Hc Hk|cur k m visited e Hc Hk Hw IH];
    intros capacity acc Hcap; rewrite walk_unfold, Hc.
  - unfold walkResult. by rewrite fmap_nil, app_nil_r.
  - by rewrite Hk.
  - rewrite Hk. destruct capacity; [simpl in Hcap; lia|].
    rewrite IH by (simpl in Hcap; lia).
    destruct e; [|done]. unfold walkResult.
    by rewrite fmap_cons, <-app_assoc.
Qed.

Lemma walk_complete capacity : forall cur acc,
  match walk capacity routes cur acc with
  | Ok chain =>
      exists visited, Walk routes cur visited AtRoot /\
        chain = reverse (acc ++ visited.*2)
  | MissingRoute k => exists visited, Walk routes cur visited (AtMissing k)
  | InvalidArrayLength => True
  end.
Proof.
  induction capacity as [|capacity IH]; intros cur acc; rewrite walk_unfold.
  - destruct (truthy cur) as [k|] eqn:Hc.
    + destruct (lookup routes k) as [m|] eqn:Hk; [done|].
      exists []. by constructor.
    + exists []. split; [by constructor|]. by rewrite fmap_nil, app_nil_r.
  - destruct (truthy cur) as [k|] eqn:Hc.
    + destruct (lookup routes k) as [m|] eqn:Hk.
      * specialize (IH (matchParentId m) (acc ++ [m])).
        destruct (walk capacity routes (matchParentId m) (acc ++ [m]))
          as [chain|k'|].
        -- destruct IH as (visited & Hw & ->). exists ((k, m) :: visited).
           split; [by econstructor|]. by rewrite fmap_cons, <-app_assoc.
        -- destruct IH as (visited & Hw). exists ((k, m) :: visited).
           by econstructor.
        -- done.
      * exists []. by constructor.
    + exists []. split; [by constructor|]. by rewrite fmap_nil, app_nil_r.
Qed.

Lemma Walk_det cur l1 e1 :
  Walk routes cur l1 e1 -> forall l2 e2, Walk routes cur l2 e2 ->
  l1 = l2 /\ e1 = e2.
Proof.
  induction 1 as [cur Hc|cur k Hc Hk|cur k m visited e Hc Hk Hw IH];
    intros l2 e2 H2; inversion H2; simplify_eq; try done.
  destruct (IH _ _ ltac:(eassumption)) as [-> ->]. done.
Qed.

Lemma Walk_restart cur k m visited e :
  Walk routes cur ((k, m) :: visited) e ->
  Walk routes (Some k) ((k, m) :: visited) e.
Proof.
  inversion 1; simplify_eq. econstructor; [|done|done].
  apply truthy_nonempty. by eapply truthy_Some.
Qed.

Lemma Walk_suffix l1 : forall cur k m l2 e,
  Walk routes cur (l1 ++ (k, m) :: l2) e ->
  Walk routes (Some k) ((k, m) :: l2) e.
Proof.
  induction l1 as [|[k1 m1] l1 IH]; intros cur k m l2 e Hw.
  - by eapply Walk_restart.
  - rewrite <-app_comm_cons in Hw. inversion Hw; simplify_eq. by eapply IH.
Qed.

Lemma Walk_entries cur visited e :
  Walk routes cur visited e ->
  forall k m, (k, m) ∈ visited -> lookup routes k = Some m /\ k ≠ "".
Proof.
  induction 1 as [cur Hc|cur k Hc Hk|cur k m visited e Hc Hk Hw IH];
    intros k' m' Hin.
  - by apply elem_of_nil in Hin.
  - by apply elem_of_nil in Hin.
  - apply elem_of_cons in Hin as [?|?]; simplify_eq; [|by apply IH].
    split; [done|]. by eapply truthy_Some.
Qed.

Lemma Walk_routes cur visited e k r :
  Walk routes cur visited e -> (k, Route r) ∈ visited ->
  ODict.get routes k = Some r /\ k ≠ "".
Proof.
  intros Hw Hin. destruct (Walk_entries _ _ _ Hw _ _ Hin) as [Hk ?].
  split; [by apply lookup_Route | done].
Qed.

Lemma Walk_NoDup cur visited e :
  Walk routes cur visited e -> NoDup visited.*1.
Proof.
  induction 1 as [cur Hc|cur k Hc Hk|cur k m visited e Hc Hk Hw IH].
  - constructor.
  - constructor.
  - rewrite fmap_cons. apply NoDup_cons. split; [|done].
    intros ([k' m'] & Hkk & Hin)%list_elem_of_fmap. simpl in Hkk. subst k'.
    apply list_elem_of_split in Hin as (l1 & l2 & ->).
    assert (Hall : Walk routes (Some k) ((k, m) :: l1 ++ (k, m') :: l2) e).
    { econstructor; [|done|done]. apply truthy_nonempty.
      by eapply truthy_Some. }
    pose proof (Walk_suffix _ _ _ _ _ _ Hw) as Hsuf.
    destruct (Walk_det _ _ _ Hall _ _ Hsuf) as [Heq _].
    apply (f_equal length) in Heq. simpl in Heq.
    rewrite length_app in Heq. simpl in Heq. lia.
Qed.

(** An inherited member has no [parentId]: it ends the walk. *)
Lemma Walk_Inherited_last cur k name visited e :
  Walk routes cur ((k, Inherited name) :: visited) e ->
  visited = [] /\ e = AtRoot.
Proof.
  inversion 1 as [| |cur' k' m' rest e' Hc Hk Hrest]; simplify_eq.
  cbn in Hrest. inversion Hrest; simplify_eq; done.
Qed.

(** A walk goes through routes of the manifest, then through at most one
    inherited member. *)
Lemma Walk_shape cur visited e :
  Walk routes cur visited e ->
  exists (own : list (string * ConfigRoute)) (rest : list (string * Match)),
    visited = ((fun x => (x.1, Route x.2)) <$> own) ++ rest /\
    (forall k r, (k, r) ∈ own -> ODict.get routes k = Some r) /\
    (rest = [] \/
     exists name, rest = [(name, Inherited name)] /\ e = AtRoot /\
       ODict.get routes name = None /\
       name ∈ JSObject.objectPrototypeKeys).
Proof.
  induction 1 as [cur Hc|cur k Hc Hk|cur k m visited e Hc Hk Hw IH].
  - exists [], []. split_and!; [done| |by left].
    intros k r H. by apply elem_of_nil in H.
  - exists [], []. split_and!; [done| |by left].
    intros k' r H. by apply elem_of_nil in H.
  - destruct m as [r|name].
    + destruct IH as (own & rest & -> & Hown & Hrest).
      exists ((k, r) :: own), rest. split_and!; [done| |done].
      intros k' r' [?|?]%elem_of_cons; simplify_eq; [|by apply Hown].
      by apply lookup_Route.
    + cbn in Hw. inversion Hw; simplify_eq.
      apply lookup_Inherited in Hk as (-> & Hnone & Hin).
      exists [], [(k, Inherited k)]. split_and!; [done| |].
      * intros k' r Hx. by apply elem_of_nil in Hx.
      * right. by exists k.
Qed.

Lemma Walk_length cur visited e :
  Walk routes cur visited e -> (length visited ≤ S (length routes))%nat.
Proof.
  intros Hw. destruct (Walk_shape _ _ _ Hw) as (own & rest & Hv & Hown & Hrest).
  assert (Hlen : (length own ≤ length routes)%nat).
  { rewrite <-(length_fmap fst own), <-(length_fmap fst routes).
    apply submseteq_length, NoDup_submseteq.
    - apply Walk_NoDup in Hw. rewrite Hv, fmap_app in Hw.
      apply NoDup_app in Hw as [Hnd _].
      by rewrite <-list_fmap_compose in Hnd.
    - intros k ([k' r] & -> & Hin)%list_elem_of_fmap.
      apply Hown, get_Some_elem in Hin. apply list_elem_of_fmap.
      by exists (k', r). }
  rewrite Hv, length_app, length_fmap.
  destruct Hrest as [->|(name & -> & _)]; cbn [length]; lia.
Qed.

Lemma getRouteMatches_Walk routeId visited e :
  Walk routes (Some routeId) visited e ->
  getRouteMatches routes routeId = walkResult [] visited e.
Proof.
  intros Hw. unfold getRouteMatches. apply walk_sound; [done|].
  by eapply Walk_length.
Qed.

Lemma getRouteMatches_inv routeId :
  match getRouteMatches routes routeId with
  | Ok chain =>
      exists visited, Walk routes (Some routeId) visited AtRoot /\
        chain = reverse visited.*2
  | MissingRoute k =>
      exists visited, Walk routes (Some routeId) visited (AtMissing k)
  | InvalidArrayLength => True
  end.
Proof. apply (walk_complete _ (Some routeId) []). Qed.

(** The array is filled only by a loop that would never end: no walk from
    the id comes to an end. *)
Lemma getRouteMatches_InvalidArrayLength routeId :
  getRouteMatches routes routeId = InvalidArrayLength ->
  forall visited e, ¬ Walk routes (Some routeId) visited e.
Proof.
  intros Hd visited e Hw. rewrite (getRouteMatches_Walk _ _ _ Hw) in Hd.
  by destruct e.
Qed.

(** The capacity of the array plays no part once it exceeds the number of
    routes. *)
Lemma walk_capacity capacity routeId :
  length routes < capacity ->
  walk capacity routes (Some routeId) [] = getRouteMatches routes routeId.
Proof.
  intros Hcap.
  assert (Hwalk : forall visited e, Walk routes (Some routeId) visited e ->
            walk capacity routes (Some routeId) [] =
            getRouteMatches routes routeId).
  { intros visited e Hw. rewrite (getRouteMatches_Walk _ _ _ Hw).
    apply walk_sound; [done|]. apply Walk_length in Hw. lia. }
  pose proof (getRouteMatches_inv routeId) as Hinv.
  destruct (getRouteMatches routes routeId) as [chain|k|] eqn:Hres.
  - destruct Hinv as (visited & Hw & _). by rewrite (Hwalk _ _ Hw).
  - destruct Hinv as (visited & Hw). by rewrite (Hwalk _ _ Hw).
  - pose proof (walk_complete capacity (Some routeId) []) as Hc.
    destruct (walk capacity routes (Some routeId) []) as [chain|k|]; [| |done].
    + destruct Hc as (visited & Hw & _).
      by destruct (getRouteMatches_InvalidArrayLength _ Hres _ _ Hw).
    + destruct Hc as (visited & Hw).
      by destruct (getRouteMatches_InvalidArrayLength _ Hres _ _ Hw).
Qed.

End WalkFacts.
(** ** Match chains of well-formed manifests *)


Lemma asMatches_cons k r (own : RouteManifest) :
  asMatches ((k, r) :: own) = (k, Route r) :: asMatches own.
Proof. reflexivity. Qed.

Lemma asMatches_values (own : RouteManifest) :
  (asMatches own).*2 = Route <$> own.*2.
Proof.
  unfold asMatches. rewrite <-!list_fmap_compose. by apply list_fmap_ext.
Qed.

Lemma asMatches_keys (own : RouteManifest) : (asMatches own).*1 = own.*1.
Proof.
  unfold asMatches. rewrite <-!list_fmap_compose. by apply list_fmap_ext.
Qed.

Lemma elem_of_asMatches (own : RouteManifest) k m :
  (k, m) ∈ asMatches own <-> exists r, m = Route r /\ (k, r) ∈ own.
Proof.
  unfold asMatches. rewrite list_elem_of_fmap. split.
  - intros ([k' r] & [= -> ->] & Hin). by exists r.
  - intros (r & -> & Hin). by exists (k, r).
Qed.



Section WellFormedFacts.
Variable routes : RouteManifest.
Hypothesis Hwf : WellFormed routes.

Lemma wf_get_nonempty k r : ODict.get routes k = Some r -> k ≠ "".
Proof.
  intros Hget ->. apply (wf_ids_nonempty _ Hwf).
  apply get_is_Some_keys. by eexists.
Qed.

Lemma wf_get_id k r : ODict.get routes k = Some r -> id r = k.
Proof. intros Hget. by apply (wf_key_is_id _ Hwf), get_Some_elem. Qed.

Lemma wf_get_depth k r : ODict.get routes k = Some r -> exists n, Depth routes k n.
Proof.
  intros Hget. apply (wf_depth _ Hwf), get_is_Some_keys. by eexists.
Qed.


Lemma Depth_Walk k n :
  Depth routes k n ->
  exists r own, ODict.get routes k = Some r /\
    Walk routes (Some k) (asMatches ((k, r) :: own)) AtRoot /\ length own = n.
Proof.
  induction 1 as [k r Hg Hp|k r p n Hg Hp Hd IH].
  - exists r, []. split_and!; [done| |done].
    econstructor; [| |].
    + apply truthy_nonempty. by eapply wf_get_nonempty.
    + by apply lookup_Route.
    + constructor. cbn. by rewrite Hp.
  - destruct IH as (rp & own & Hgp & Hw & Hlen).
    exists r, ((p, rp) :: own). split_and!; [done| |by rewrite <-Hlen].
    rewrite asMatches_cons. econstructor; [| |by cbn; rewrite Hp].
    + apply truthy_nonempty. by eapply wf_get_nonempty.
    + by apply lookup_Route.
Qed.

(** From a route of a well-formed manifest the walk meets routes only and
    ends at a root. *)
Lemma wf_Walk_own k r visited e :
  ODict.get routes k = Some r -> Walk routes (Some k) visited e ->
  exists own, visited = asMatches ((k, r) :: own) /\ e = AtRoot.
Proof.
  intros Hget Hw. destruct (wf_get_depth _ _ Hget) as [n Hd].
  destruct (Depth_Walk _ _ Hd) as (r' & own & Hget' & Hw' & _).
  assert (r' = r) as -> by congruence.
  destruct (Walk_det _ _ _ _ Hw _ _ Hw') as [-> ->]. by exists own.
Qed.

Lemma Depth_det k n1 : Depth routes k n1 -> forall n2, Depth routes k n2 -> n1 = n2.
Proof.
  induction 1 as [k r Hg Hp|k r p n Hg Hp Hd IH]; intros n2 H2;
    inversion H2; simplify_eq; [done|]. f_equal. by apply IH.
Qed.



End WellFormedFacts.


Lemma sampleManifest_wf : WellFormed sampleManifest.
Proof.
  split.
  - apply (bool_decide_unpack _). by vm_compute.
  - intros k r Hin.
    repeat (apply elem_of_cons in Hin as [?|Hin]; simplify_eq; [done|]).
    by apply elem_of_nil in Hin.
  - apply (bool_decide_unpack _). by vm_compute.
  - intros k Hin. cbn in Hin. set_unfold in Hin.
    destruct Hin as [->|[->|[->|[]]]].
    + exists 0. eapply Depth_root; reflexivity.
    + exists 1. eapply Depth_child; [reflexivity..|].
      eapply Depth_root; reflexivity.
    + exists 1. eapply Depth_child; [reflexivity..|].
      eapply Depth_root; reflexivity.
Defined.

(** ** Missing routes and empty parent ids *)

Lemma Encounters_nonempty routes s k : Encounters routes s k -> k ≠ "".
Proof. by destruct 1. Qed.

Lemma Encounters_Walk routes s k :
  Encounters routes s k ->
  forall visited e, Walk routes (Some k) visited e ->
  exists visited', Walk routes (Some s) visited' e.
Proof.
  induction 1 as [Hs|k r p Henc IH Hget Hp Hne]; intros visited e Hw.
  - by exists visited.
  - apply (IH ((k, Route r) :: visited)). econstructor; [| |].
    + apply truthy_nonempty. by eapply Encounters_nonempty.
    + by apply lookup_Route.
    + cbn. by rewrite Hp.
Qed.

Lemma Walk_Encounters routes s cur visited e :
  Walk routes cur visited e ->
  forall k0 k, truthy cur = Some k0 -> Encounters routes s k0 ->
  e = AtMissing k -> Encounters routes s k /\ lookup routes k = None.
Proof.
  induction 1 as [cur Hc|cur k1 Hc Hk|cur k1 m visited e Hc Hk Hw IH];
    intros k0 k Hc0 Henc He; simplify_eq.
  - done.
  - destruct m as [r|name]; cbn in Hw; [|inversion Hw; simplify_eq].
    apply lookup_Route in Hk.
    destruct (truthy (parentId r)) as [p|] eqn:Hp.
    + eapply IH; [done| |done]. apply truthy_Some in Hp as [Hp Hne].
      by eapply Encounters_parent.
    + inversion Hw; simplify_eq.
Qed.

Lemma getRouteMatches_MissingRoute_iff routes routeId k :
  getRouteMatches routes routeId = MissingRoute k
  <-> Encounters routes routeId k /\ lookup routes k = None.
Proof.
  split.
  - intros Hm. pose proof (getRouteMatches_inv routes routeId) as Hinv.
    rewrite Hm in Hinv. destruct Hinv as (visited & Hw).
    assert (Hne : routeId ≠ "").
    { inversion Hw as [|? ? Hc|? ? ? ? ? Hc]; simplify_eq;
        by apply truthy_Some in Hc as [[= ->] ?]. }
    eapply Walk_Encounters; [done| |by constructor|done].
    by apply truthy_nonempty.
  - intros [Henc Hnone].
    destruct (Encounters_Walk _ _ _ Henc [] (AtMissing k)) as (visited & Hw).
    { constructor; [|done]. apply truthy_nonempty.
      by eapply Encounters_nonempty. }
    by rewrite (getRouteMatches_Walk _ _ _ _ Hw).
Qed.

(** C10: a route whose [parentId] is the empty string is the end of its
    walk: the call returns, with that route alone when its own id is not
    empty, whether or not the manifest has a route under the empty key. *)
Theorem getRouteMatches_empty_parentId_is_root (routes : RouteManifest) k r :
  ODict.get routes k = Some r ->
  parentId r = Some "" ->
  exists chain,
    getRouteMatches routes k = Ok chain /\ (k ≠ "" -> chain = [Route r]).
Proof.
  intros Hget Hp. destruct (decide (k = "")) as [->|Hne].
  - exists []. split; [|done].
    by rewrite (getRouteMatches_Walk routes "" [] AtRoot) by by constructor.
  - exists [Route r]. split; [|done].
    rewrite (getRouteMatches_Walk routes k [(k, Route r)] AtRoot); [done|].
    econstructor; [by apply truthy_nonempty | by apply lookup_Route |].
    constructor. cbn. by rewrite Hp.
Qed.

Lemma getRouteMatches_empty_parentId_is_root_witness :
  exists chain,
    getRouteMatches emptyParentManifest "orphan" = Ok chain /\
    ("orphan" ≠ "" -> chain = [Route orphanRoute]).
Proof.
  apply (getRouteMatches_empty_parentId_is_root emptyParentManifest
           "orphan" orphanRoute); reflexivity.
Defined.

(** ** Grouping leaves into bundles *)

Lemma firstOccurrences_snoc l : forall seen d,
  firstOccurrences seen (l ++ [d]) =
  firstOccurrences seen l ++ (if decide (d ∈ seen ++ l) then [] else [d]).
Proof.
  induction l as [|k l IH]; intros seen d; cbn [firstOccurrences app].
  - rewrite app_nil_r. destruct (decide (d ∈ seen)); done.
  - destruct (decide (k ∈ seen)) as [Hk|Hk].
    + rewrite IH. f_equal.
      destruct (decide (d ∈ seen ++ l)) as [Hd|Hd].
      * rewrite decide_True; [done|].
        rewrite elem_of_app, elem_of_cons. apply elem_of_app in Hd. tauto.
      * rewrite decide_False; [done|].
        rewrite elem_of_app, elem_of_cons. rewrite elem_of_app in Hd.
        intros [?|[->|?]]; tauto.
    + rewrite IH. cbn [app]. do 2 f_equal.
      destruct (decide (d ∈ k :: seen ++ l)) as [Hd|Hd].
      * rewrite decide_True; [done|].
        rewrite elem_of_app, elem_of_cons.
        rewrite elem_of_cons, elem_of_app in Hd. tauto.
      * rewrite decide_False; [done|].
        rewrite elem_of_app, elem_of_cons.
        rewrite elem_of_cons, elem_of_app in Hd. tauto.
Qed.

Lemma elem_of_firstOccurrences l : forall seen d,
  d ∈ firstOccurrences seen l <-> d ∈ l /\ d ∉ seen.
Proof.
  induction l as [|k l IH]; intros seen d; cbn [firstOccurrences].
  - split; [intros H; by apply elem_of_nil in H|].
    intros [H _]. by apply elem_of_nil in H.
  - destruct (decide (k ∈ seen)) as [Hk|Hk].
    + rewrite IH, elem_of_cons. split; [intros [? ?]; auto|].
      intros [[->|?] ?]; done.
    + rewrite !elem_of_cons, IH, not_elem_of_cons. split.
      * intros [->|[? [? ?]]]; auto.
      * intros [[->|?] ?]; [by left|].
        destruct (decide (d = k)) as [->|?]; [by left | by right].
Qed.

Lemma NoDup_firstOccurrences l : forall seen, NoDup (firstOccurrences seen l).
Proof.
  induction l as [|k l IH]; intros seen; cbn [firstOccurrences].
  - constructor.
  - destruct (decide (k ∈ seen)); [apply IH|].
    apply NoDup_cons. split; [|apply IH].
    rewrite elem_of_firstOccurrences, not_elem_of_cons.
    intros [_ [? _]]. done.
Qed.


Lemma filter_absent (l : list string) x :
  x ∉ l -> filter (fun i => i ≠ x) l = l.
Proof.
  induction l as [|i l IH]; [done|]. rewrite not_elem_of_cons.
  intros [Hi Hl]. rewrite filter_cons, decide_True by done. f_equal.
  by apply IH.
Qed.

(** ** Assignments to the routes of a bundle *)

Section MergeFacts.
Implicit Types (o : JSObject.t Match) (ms : list Match) (m : Match).
Implicit Types (i : string).

Lemma mergeMatches_snoc o ms m :
  mergeMatches o (ms ++ [m])
  = JSObject.assign (mergeMatches o ms) (matchKey m) m.
Proof. unfold mergeMatches. by rewrite foldl_app. Qed.

Lemma mergeMatches_app o ms1 ms2 :
  mergeMatches o (ms1 ++ ms2) = mergeMatches (mergeMatches o ms1) ms2.
Proof. unfold mergeMatches. by rewrite foldl_app. Qed.

Lemma lastUnder_snoc ms m i :
  lastUnder (ms ++ [m]) i
  = if decide (matchKey m = i) then Some m else lastUnder ms i.
Proof.
  unfold lastUnder. rewrite filter_app, filter_cons, filter_nil.
  case_decide; [by rewrite last_snoc | by rewrite app_nil_r].
Qed.

Lemma lastUnder_elem ms i m :
  lastUnder ms i = Some m -> m ∈ ms /\ matchKey m = i.
Proof.
  unfold lastUnder. intros Hl.
  assert (Hin : m ∈ filter (fun m => matchKey m = i) ms).
  { destruct (filter (fun m => matchKey m = i) ms) as [|x l] using rev_ind;
      [done|].
    rewrite last_snoc in Hl. simplify_eq. apply elem_of_app. right. left. }
  by apply list_elem_of_filter in Hin as [? ?].
Qed.

Lemma lastUnder_is_Some ms i :
  is_Some (lastUnder ms i) <-> i ∈ matchKey <$> ms.
Proof.
  unfold lastUnder. rewrite list_elem_of_fmap. split.
  - intros [m Hm]. apply lastUnder_elem in Hm as [? ?]. by exists m.
  - intros (m & -> & Hin).
    assert (Hf : m ∈ filter (fun m' => matchKey m' = matchKey m) ms)
      by (by apply list_elem_of_filter).
    destruct (filter (fun m' => matchKey m' = matchKey m) ms)
      as [|x l _] using rev_ind; [by apply elem_of_nil in Hf|].
    rewrite last_snoc. by eexists.
Qed.

(** What the assignments of a sequence of matches make of an empty
    object: under every key but [__proto__] the last match with that key,
    the keys in the order in which they first occur, and as prototype the
    last match with the key [__proto__]. *)
Lemma mergeMatches_empty ms :
  (forall i,
     JSObject.get (mergeMatches JSObject.empty ms) i
     = if decide (i = "__proto__") then None else lastUnder ms i) /\
  JSObject.proto (mergeMatches JSObject.empty ms) = lastUnder ms "__proto__" /\
  ODict.keys (JSObject.props (mergeMatches JSObject.empty ms))
  = firstOccurrences []
      (filter (fun i => i ≠ "__proto__") (matchKey <$> ms)).
Proof.
  induction ms as [|m ms IH] using rev_ind.
  - split_and!; [|done|done]. intros i. by case_decide.
  - destruct IH as (Hget & Hproto & Hkeys). rewrite mergeMatches_snoc.
    unfold JSObject.assign.
    destruct (decide (matchKey m = "__proto__")) as [Hk|Hk].
    + rewrite decide_True.
      2:{ split; [done|]. rewrite Hk. specialize (Hget "__proto__").
          by rewrite decide_True in Hget. }
      cbn [JSObject.props JSObject.proto]. split_and!.
      * intros i. unfold JSObject.get. cbn [JSObject.props].
        rewrite lastUnder_snoc. specialize (Hget i). unfold JSObject.get in Hget.
        rewrite Hget. case_decide; [done|]. by rewrite decide_False by congruence.
      * by rewrite lastUnder_snoc, decide_True.
      * rewrite Hkeys, fmap_app, filter_app. cbn [fmap list_fmap].
        rewrite filter_cons, filter_nil, decide_False by (by intros ?).
        by rewrite app_nil_r.
    + rewrite decide_False by (by intros [? _]).
      cbn [JSObject.props JSObject.proto]. split_and!.
      * intros i. unfold JSObject.get. cbn [JSObject.props].
        rewrite get_set, lastUnder_snoc. specialize (Hget i).
        unfold JSObject.get in Hget.
        destruct (decide (matchKey m = i)) as [<-|Hne]; [|done].
        by rewrite decide_False.
      * by rewrite lastUnder_snoc, decide_False.
      * rewrite keys_set, Hkeys, fmap_app, filter_app. cbn [fmap list_fmap].
        rewrite filter_cons, filter_nil.
        rewrite (decide_True (P := matchKey m ≠ "__proto__")) by done.
        rewrite firstOccurrences_snoc, app_nil_l.
        destruct (decide (matchKey m
                            ∈ filter (fun i => i ≠ "__proto__")
                                (matchKey <$> ms))) as [Hin|Hin].
        -- rewrite decide_True; [by rewrite app_nil_r|].
           apply elem_of_firstOccurrences. split; [done | apply not_elem_of_nil].
        -- rewrite decide_False; [done|].
           rewrite elem_of_firstOccurrences. by intros [? _].
Qed.


End MergeFacts.

Section Grouping.
Implicit Types (keyed : list (string * list Match)) (d : string).

Lemma chainsOf_snoc keyed d d' chain :
  chainsOf (keyed ++ [(d, chain)]) d' =
  chainsOf keyed d' ++ (if decide (d = d') then chain else []).
Proof.
  unfold chainsOf. rewrite filter_app, fmap_app, concat_app. f_equal.
  rewrite filter_cons, filter_nil. cbn [fst].
  destruct (decide (d = d')); [|done]. cbn. by rewrite app_nil_r.
Qed.

Lemma chainsOf_absent keyed d : d ∉ keyed.*1 -> chainsOf keyed d = [].
Proof.
  unfold chainsOf. induction keyed as [|[k c] keyed IH]; [done|].
  rewrite fmap_cons, not_elem_of_cons. cbn [fst]. intros [Hne Hd].
  rewrite filter_cons. cbn [fst]. rewrite decide_False by done. by apply IH.
Qed.

Lemma bundleOf_snoc_ne keyed d d' chain :
  d ≠ d' -> bundleOf (keyed ++ [(d, chain)]) d' = bundleOf keyed d'.
Proof.
  intros Hne. unfold bundleOf. rewrite chainsOf_snoc.
  rewrite decide_False by done. by rewrite app_nil_r.
Qed.

Lemma bundleOf_snoc_eq keyed d chain :
  bundleOf (keyed ++ [(d, chain)]) d =
  SBC.mk (mergeMatches (SBC.routes (bundleOf keyed d)) chain) d.
Proof.
  unfold bundleOf. rewrite chainsOf_snoc, decide_True by done.
  by rewrite mergeMatches_app.
Qed.

Lemma get_bundle_list (B : string -> SBC.t) (ks : list string) d :
  ODict.get ((fun d' => (d', B d')) <$> ks) d =
  if decide (d ∈ ks) then Some (B d) else None.
Proof.
  induction ks as [|k ks IH].
  - by rewrite decide_False by apply not_elem_of_nil.
  - rewrite fmap_cons, get_cons, IH.
    destruct (decide (k = d)) as [->|Hne].
    + by rewrite decide_True by left.
    + destruct (decide (d ∈ ks)).
      * by rewrite decide_True by (by right).
      * rewrite decide_False; [done|]. rewrite not_elem_of_cons. by split.
Qed.

Lemma keys_bundle_list (B : string -> SBC.t) (ks : list string) :
  ODict.keys ((fun d' => (d', B d')) <$> ks) = ks.
Proof.
  unfold ODict.keys. induction ks as [|k ks IH]; [done|].
  rewrite !fmap_cons. cbn [fst]. by rewrite IH.
Qed.

Lemma set_bundle_list (B B' : string -> SBC.t) (ks : list string) d :
  NoDup ks -> d ∈ ks ->
  (forall d', d' ≠ d -> B' d' = B d') ->
  ODict.set ((fun d' => (d', B d')) <$> ks) d (B' d) =
  (fun d' => (d', B' d')) <$> ks.
Proof.
  intros Hnd Hin HB. induction ks as [|k ks IH]; [by apply elem_of_nil in Hin|].
  apply NoDup_cons in Hnd as [Hk Hnd]. rewrite !fmap_cons, set_cons.
  destruct (decide (k = d)) as [->|Hne].
  - f_equal. apply list_fmap_ext. intros i d' Hd'.
    rewrite HB; [done|]. intros ->. apply Hk. by eapply list_elem_of_lookup_2.
  - rewrite (HB k) by done. f_equal. apply IH; [done|].
    apply elem_of_cons in Hin as [->|?]; done.
Qed.

Lemma bundleMap_step keyed d chain :
  ODict.set (bundleMap keyed) d
    (SBC.mk
       (mergeMatches
          (SBC.routes (match ODict.get (bundleMap keyed) d with
                       | Some c => c
                       | None => SBC.mk JSObject.empty d
                       end)) chain)
       (SBC.serverBuildDirectory
          (match ODict.get (bundleMap keyed) d with
           | Some c => c
           | None => SBC.mk JSObject.empty d
           end)))
  = bundleMap (keyed ++ [(d, chain)]).
Proof.
  unfold bundleMap at 1 2 3. rewrite get_bundle_list.
  unfold bundleMap.
  replace ((keyed ++ [(d, chain)]).*1) with (keyed.*1 ++ [d])
    by (by rewrite fmap_app).
  rewrite firstOccurrences_snoc, app_nil_l.
  assert (Hmem : d ∈ firstOccurrences [] keyed.*1 <-> d ∈ keyed.*1).
  { rewrite elem_of_firstOccurrences. split; [by intros [? _]|].
    intros ?. split; [done | apply not_elem_of_nil]. }
  destruct (decide (d ∈ keyed.*1)) as [Hd|Hd].
  - rewrite decide_True by (by apply Hmem). rewrite app_nil_r.
    cbn [SBC.serverBuildDirectory bundleOf]. rewrite <-bundleOf_snoc_eq.
    apply set_bundle_list; [apply NoDup_firstOccurrences | by apply Hmem |].
    intros d' Hne. by apply bundleOf_snoc_ne.
  - rewrite decide_False by (by rewrite Hmem).
    cbn [SBC.serverBuildDirectory SBC.routes].
    rewrite set_snoc.
    2:{ by rewrite keys_bundle_list, Hmem. }
    rewrite fmap_app. f_equal.
    + apply list_fmap_ext. intros i d' Hd'. f_equal. symmetry.
      apply bundleOf_snoc_ne. intros ->. apply Hd, Hmem.
      by eapply list_elem_of_lookup_2.
    + cbn. do 2 f_equal. rewrite bundleOf_snoc_eq.
      unfold bundleOf at 1. by rewrite chainsOf_absent.
Qed.

Lemma values_bundleMap keyed : ODict.values (bundleMap keyed) = groupBundles keyed.
Proof.
  unfold ODict.values, bundleMap, groupBundles.
  by rewrite <-list_fmap_compose.
Qed.

End Grouping.

Lemma assignLeaves_spec routes dir f leaves : forall chains keyed,
  Forall2 (fun leaf chain => getRouteMatches routes (id leaf) = Ok chain)
    leaves chains ->
  assignLeaves routes dir f (bundleMap keyed) leaves =
  Ok (bundleMap (keyed ++ keyedLeaves dir f leaves chains)).
Proof.
  induction leaves as [|leaf leaves IH]; intros chains keyed Hall.
  - apply Forall2_nil_inv_l in Hall as ->. cbn. by rewrite app_nil_r.
  - apply Forall2_cons_inv_l in Hall as (chain & chains' & Hc & Hall & ->).
    cbn [assignLeaves]. unfold assignLeaf. rewrite Hc. cbn [obind].
    rewrite bundleMap_step, (IH _ _ Hall). unfold keyedLeaves.
    cbn [zip_with]. by rewrite <-app_assoc.
Qed.

Lemma getServerBundles_grouped (cfg : RPC.t) f chains :
  RPC.serverBundleDirectory cfg = Some f ->
  Forall2 (fun leaf chain =>
             getRouteMatches (RPC.routes cfg) (id leaf) = Ok chain)
    (getLeafRoutes (RPC.routes cfg)) chains ->
  getServerBundles cfg =
  Ok (groupBundles (keyedLeaves (RPC.serverBuildDirectory cfg) f
                      (getLeafRoutes (RPC.routes cfg)) chains)).
Proof.
  intros Hf Hall. unfold getServerBundles. rewrite Hf.
  change (@nil (string * SBC.t)) with (bundleMap []).
  rewrite (assignLeaves_spec _ _ _ _ _ _ Hall). cbn [obind app].
  by rewrite values_bundleMap.
Qed.

Lemma directories_groupBundles keyed :
  SBC.serverBuildDirectory <$> groupBundles keyed
  = firstOccurrences [] keyed.*1.
Proof.
  unfold groupBundles.
  induction (firstOccurrences [] keyed.*1) as [|k ks IH]; [done|].
  rewrite !fmap_cons. by rewrite IH.
Qed.

Lemma elem_of_concat {A} (x : A) (ls : list (list A)) :
  x ∈ concat ls <-> exists l, x ∈ l /\ l ∈ ls.
Proof.
  induction ls as [|l ls IH]; cbn [concat].
  - split; [intros H; by apply elem_of_nil in H|].
    intros (l & _ & H). by apply elem_of_nil in H.
  - rewrite elem_of_app, IH. split.
    + intros [?|(l' & ? & ?)]; [exists l; split; [done | left]|].
      exists l'. split; [done | by right].
    + intros (l' & ? & [->|?]%elem_of_cons); [by left|].
      right. by exists l'.
Qed.

Lemma elem_of_chainsOf (keyed : list (string * list Match)) d m :
  m ∈ chainsOf keyed d <-> exists c, (d, c) ∈ keyed /\ m ∈ c.
Proof.
  unfold chainsOf. rewrite elem_of_concat. split.
  - intros (c & Hr & ([d' c'] & -> & [Hd Hin]%list_elem_of_filter)%list_elem_of_fmap).
    cbn in Hd. subst d'. by exists c'.
  - intros (c & Hin & Hr). exists c. split; [done|].
    apply list_elem_of_fmap. exists (d, c). split; [done|].
    by apply list_elem_of_filter.
Qed.

Lemma keyedLeaves_chains dir f leaves : forall chains d c,
  (d, c) ∈ keyedLeaves dir f leaves chains -> c ∈ chains.
Proof.
  unfold keyedLeaves.
  induction leaves as [|leaf leaves IH]; intros [|c' cs] d c Hin;
    try (by apply elem_of_nil in Hin).
  cbn [zip_with] in Hin. apply elem_of_cons in Hin as [?|Hin].
  - simplify_eq. left.
  - right. by eapply IH.
Qed.

(** C4, as amended: with a classification function (and every leaf's chain
    computed, no match having the key [__proto__]), the leaves are taken in
    the order in which the manifest is enumerated, the key of a leaf is
    [path.join(serverBuildDirectory, suffix)], there is one bundle per key,
    in the order in which the keys first occur, and the routes of a bundle
    are what the chains of the leaves with its key, taken one after the
    other, leave there: every match under its key, the last one where a key
    comes again, the keys in the order in which they first occur. *)
Theorem getServerBundles_groups_in_first_occurrence_order
    (cfg : RPC.t) (f : BundleClassifier) (chains : list (list Match)) :
  RPC.serverBundleDirectory cfg = Some f ->
  Forall2 (fun leaf chain =>
             getRouteMatches (RPC.routes cfg) (id leaf) = Ok chain)
    (getLeafRoutes (RPC.routes cfg)) chains ->
  Forall (fun chain => "__proto__" ∉ matchKey <$> chain) chains ->
  let leaves := getLeafRoutes (RPC.routes cfg) in
  let keyed :=
    zip_with (fun leaf chain =>
                (path.join (RPC.serverBuildDirectory cfg) (f leaf chain),
                 chain)) leaves chains in
  leaves
  = (filter (fun e => isLeafKey (RPC.routes cfg) e.1)
       (JSObject.enumerate (RPC.routes cfg))).*2 /\
  exists bundles,
    getServerBundles cfg = Ok bundles /\
    SBC.serverBuildDirectory <$> bundles = firstOccurrences [] keyed.*1 /\
    forall b, b ∈ bundles ->
      let merged := chainsOf keyed (SBC.serverBuildDirectory b) in
      (forall i, JSObject.get (SBC.routes b) i = lastUnder merged i) /\
      ODict.keys (JSObject.props (SBC.routes b))
      = firstOccurrences [] (matchKey <$> merged) /\
      JSObject.proto (SBC.routes b) = None.
Proof.
  intros Hf Hall Hproto leaves keyed.
  split; [apply getLeafRoutes_enumerate|].
  exists (groupBundles keyed). split_and!.
  - by apply getServerBundles_grouped.
  - apply directories_groupBundles.
  - intros b (d & -> & Hd)%list_elem_of_fmap.
    cbn [bundleOf SBC.serverBuildDirectory SBC.routes].
    destruct (mergeMatches_empty (chainsOf keyed d)) as (Hget & Hp & Hkeys).
    assert (Hno : "__proto__" ∉ matchKey <$> chainsOf keyed d).
    { intros (m & Hk & (c & Hin & Hm)%elem_of_chainsOf)%list_elem_of_fmap.
      apply keyedLeaves_chains in Hin.
      rewrite Forall_forall in Hproto. apply (Hproto c Hin).
      apply list_elem_of_fmap. by exists m. }
    split_and!.
    + intros i. rewrite Hget. case_decide as Hi; [|done]. subst i.
      destruct (lastUnder (chainsOf keyed d) "__proto__") as [m|] eqn:Hl;
        [|done].
      exfalso. apply Hno, lastUnder_is_Some. by eexists.
    + by rewrite Hkeys, filter_absent.
    + rewrite Hp.
      destruct (lastUnder (chainsOf keyed d) "__proto__") as [m|] eqn:Hl;
        [|done].
      exfalso. apply Hno, lastUnder_is_Some. by eexists.
Qed.

Lemma keyedLeaves_elem (R : ConfigRoute -> list Match -> Prop)
    dir f leaves chains leaf :
  Forall2 R leaves chains -> leaf ∈ leaves ->
  exists chain, R leaf chain /\
    (path.join dir (f leaf chain), chain) ∈ keyedLeaves dir f leaves chains.
Proof.
  unfold keyedLeaves. induction 1 as [|l c leaves chains HR Hall IH].
  - intros H. by apply elem_of_nil in H.
  - intros [->|Hin]%elem_of_cons; cbn [zip_with].
    + exists c. split; [done | left].
    + destruct (IH Hin) as (chain & ? & ?). exists chain.
      split; [done | by right].
Qed.

Lemma keyedLeaves_inv (R : ConfigRoute -> list Match -> Prop)
    dir f leaves chains d c :
  Forall2 R leaves chains -> (d, c) ∈ keyedLeaves dir f leaves chains ->
  exists leaf, leaf ∈ leaves /\ R leaf c /\ d = path.join dir (f leaf c).
Proof.
  unfold keyedLeaves. induction 1 as [|l c' leaves chains HR Hall IH].
  - intros H. by apply elem_of_nil in H.
  - cbn [zip_with]. intros [Heq|Hin]%elem_of_cons.
    + simplify_eq. exists l. split_and!; [left | done | done].
    + destruct (IH Hin) as (leaf & ? & ? & ?). exists leaf.
      split_and!; [by right | done | done].
Qed.

(** ** Leaves of well-formed manifests *)

Section WellFormedLeaves.
Variable routes : RouteManifest.
Hypothesis Hwf : WellFormed routes.


Lemma leaf_inv leaf :
  leaf ∈ getLeafRoutes routes -> ODict.get routes (id leaf) = Some leaf.
Proof.
  intros (k & Hin & _)%elem_of_getLeafRoutes.
  rewrite (wf_key_is_id _ Hwf _ _ Hin). apply elem_get; [apply Hwf | done].
Qed.

Lemma wf_chain k r :
  ODict.get routes k = Some r ->
  exists own, Walk routes (Some k) (asMatches ((k, r) :: own)) AtRoot.
Proof.
  intros Hget. destruct (wf_get_depth _ Hwf _ _ Hget) as [n Hd].
  destruct (Depth_Walk _ Hwf _ _ Hd) as (r' & own & Hget' & Hw & _).
  assert (r' = r) as -> by congruence. by exists own.
Qed.

(** The chain of a route of a well-formed manifest is made of routes. *)
Lemma wf_chain_own k r chain :
  ODict.get routes k = Some r -> getRouteMatches routes k = Ok chain ->
  exists own,
    Walk routes (Some k) (asMatches ((k, r) :: own)) AtRoot /\
    chain = Route <$> reverse ((k, r) :: own).*2.
Proof.
  intros Hget Hres. destruct (wf_chain _ _ Hget) as [own Hw].
  exists own. split; [done|].
  rewrite (getRouteMatches_Walk _ _ _ _ Hw) in Hres.
  unfold walkResult in Hres. rewrite app_nil_l, asMatches_values in Hres.
  rewrite fmap_reverse. by simplify_eq.
Qed.






End WellFormedLeaves.

Lemma getServerBundles_groups_in_first_occurrence_order_witness :
  let leaves := getLeafRoutes (RPC.routes (sampleConfig (Some splitClassifier))) in
  let keyed :=
    zip_with (fun leaf chain =>
                (path.join
                   (RPC.serverBuildDirectory (sampleConfig (Some splitClassifier)))
                   (splitClassifier leaf chain),
                 chain)) leaves sampleChains in
  leaves
  = (filter (fun e => isLeafKey
                        (RPC.routes (sampleConfig (Some splitClassifier))) e.1)
       (JSObject.enumerate
          (RPC.routes (sampleConfig (Some splitClassifier))))).*2 /\
  exists bundles,
    getServerBundles (sampleConfig (Some splitClassifier)) = Ok bundles /\
    SBC.serverBuildDirectory <$> bundles = firstOccurrences [] keyed.*1 /\
    forall b, b ∈ bundles ->
      let merged := chainsOf keyed (SBC.serverBuildDirectory b) in
      (forall i, JSObject.get (SBC.routes b) i = lastUnder merged i) /\
      ODict.keys (JSObject.props (SBC.routes b))
      = firstOccurrences [] (matchKey <$> merged) /\
      JSObject.proto (SBC.routes b) = None.
Proof.
  apply (getServerBundles_groups_in_first_occurrence_order
           (sampleConfig (Some splitClassifier)) splitClassifier sampleChains).
  - reflexivity.
  - repeat constructor.
  - apply (bool_decide_unpack _). by vm_compute.
Defined.

(** The bundles of the sample: [zeta] comes before [alpha], the order of
    the leaves and not that of the names. *)
Example getServerBundles_split_sample :
  getServerBundles (sampleConfig (Some splitClassifier)) =
  Ok [SBC.mk (JSObject.mk [("root", Route sampleRoot); ("a", Route sampleA)]
                None) "/proj/build/server/zeta";
      SBC.mk (JSObject.mk [("root", Route sampleRoot); ("b", Route sampleB)]
                None) "/proj/build/server/alpha"].
Proof. reflexivity. Qed.

(** C4 as stated fails on a manifest with array-index ids: created in the
    order [root], [10], [9], [b], with one bundle per leaf, the leaves in
    the order of insertion are [10], [9], [b], and the bundles come in the
    order [9], [10], [b].  It fails also for a leaf with the id
    [__proto__]: its chain is not put into the routes of its bundle, which
    stay empty. *)
Lemma getServerBundles_numeric_ids_reordered :
  ((filter (fun e => isLeafKey numericManifest e.1) numericManifest).*2
   = [route10; route9; sampleB] /\
   exists bundles,
     getServerBundles numericConfig = Ok bundles /\
     SBC.serverBuildDirectory <$> bundles
     = ["/proj/build/server/9"; "/proj/build/server/10";
        "/proj/build/server/b"] /\
     SBC.serverBuildDirectory <$> bundles
     ≠ (fun leaf => path.join "/proj/build/server" (perLeafClassifier leaf []))
         <$> [route10; route9; sampleB]) /\
  (getLeafRoutes protoManifest = [protoRoute] /\
   getRouteMatches protoManifest "__proto__" = Ok [Route protoRoute] /\
   getServerBundles protoConfig
   = Ok [SBC.mk (JSObject.mk [] (Some (Route protoRoute)))
           "/proj/build/server/shared"]).
Proof.
  split.
  - split; [reflexivity|]. eexists.
    split_and!; [reflexivity | reflexivity | discriminate].
  - split_and!; reflexivity.
Qed.

(** ** The routes of the bundles of a well-formed manifest *)


Section LeafBundles.
Variable routes : RouteManifest.
Hypothesis Hwf : WellFormed routes.
Variable dir : string.
Variable f : BundleClassifier.
Variable chains : list (list Match).
Hypothesis Hall :
  Forall2 (fun leaf chain => getRouteMatches routes (id leaf) = Ok chain)
    (getLeafRoutes routes) chains.

Let keyed := keyedLeaves dir f (getLeafRoutes routes) chains.







End LeafBundles.

(** ** One key for every leaf *)

Section SingleKey.
Variable cfg : RPC.t.
Variable f : BundleClassifier.
Variable key : string.
Hypothesis Hwf : WellFormed (RPC.routes cfg).
Hypothesis Hf : RPC.serverBundleDirectory cfg = Some f.
Hypothesis Hkey : forall leaf chain,
  leaf ∈ getLeafRoutes (RPC.routes cfg) ->
  getRouteMatches (RPC.routes cfg) (id leaf) = Ok chain ->
  path.join (RPC.serverBuildDirectory cfg) (f leaf chain) = key.


End SingleKey.





(** ** What the classification function can cause *)

Lemma assignLeaves_sameStatus routes dir f g leaves : forall sb sb',
  sameStatus (assignLeaves routes dir f sb leaves)
             (assignLeaves routes dir g sb' leaves).
Proof.
  induction leaves as [|leaf leaves IH]; intros sb sb'; cbn [assignLeaves].
  - done.
  - unfold assignLeaf.
    destruct (getRouteMatches routes (id leaf)) as [chain|k|]; cbn [obind].
    + apply IH.
    + done.
    + done.
Qed.

(** C2, as amended: the bundle assigner does not examine the directory the
    classification function returns.  Whether the call returns or fails
    does not depend on that function; and when the chains are computed, the
    call returns, every leaf's joined path, whatever it is, is the
    directory of a bundle, and leaves with the same joined path share one
    bundle. *)
Theorem getServerBundles_accepts_any_directory
    (routes : RouteManifest) (root dir : string) (f g : BundleClassifier) :
  sameStatus (getServerBundles (RPC.mk routes root dir (Some f)))
             (getServerBundles (RPC.mk routes root dir (Some g)))
  /\ forall chains,
       Forall2 (fun leaf chain => getRouteMatches routes (id leaf) = Ok chain)
         (getLeafRoutes routes) chains ->
       exists bundles,
         getServerBundles (RPC.mk routes root dir (Some f)) = Ok bundles /\
         NoDup (SBC.serverBuildDirectory <$> bundles) /\
         forall leaf, leaf ∈ getLeafRoutes routes ->
           exists chain,
             getRouteMatches routes (id leaf) = Ok chain /\
             path.join dir (f leaf chain)
               ∈ SBC.serverBuildDirectory <$> bundles.
Proof.
  split.
  - unfold getServerBundles. cbn [RPC.serverBundleDirectory RPC.routes
                                  RPC.serverBuildDirectory].
    pose proof (assignLeaves_sameStatus routes dir f g
                  (getLeafRoutes routes) [] []) as Hs.
    destruct (assignLeaves routes dir f [] (getLeafRoutes routes)),
             (assignLeaves routes dir g [] (getLeafRoutes routes)); done.
  - intros chains Hall. eexists. split_and!.
    + by apply (getServerBundles_grouped (RPC.mk routes root dir (Some f))
                  f chains).
    + rewrite directories_groupBundles. apply NoDup_firstOccurrences.
    + intros leaf Hleaf.
      destruct (keyedLeaves_elem _ dir f _ _ _ Hall Hleaf)
        as (chain & Hc & Hin).
      exists chain. split; [done|].
      rewrite directories_groupBundles. apply elem_of_firstOccurrences.
      split; [|apply not_elem_of_nil].
      apply list_elem_of_fmap. by eexists (_, chain).
Qed.

(** C2 as stated fails: a suffix leading out of the server build directory
    yields a bundle outside it, and two suffixes with one normalised path
    yield one merged bundle; in both cases the call returns normally. *)
Lemma getServerBundles_escape_and_collision_accepted :
  (getServerBundles (sampleConfig (Some escapeClassifier)) =
     Ok [SBC.mk (JSObject.mk [("root", Route sampleRoot); ("a", Route sampleA)]
                   None) "/proj/elsewhere";
         SBC.mk (JSObject.mk [("root", Route sampleRoot); ("b", Route sampleB)]
                   None) "/proj/build/server/b"]
   /\ isWithinRoot "/" "/proj/build/server" "/proj/elsewhere" = false)
  /\
  (getServerBundles (sampleConfig (Some collideClassifier)) =
     Ok [SBC.mk (JSObject.mk [("root", Route sampleRoot); ("a", Route sampleA);
                              ("b", Route sampleB)] None)
           "/proj/build/server/x"]
   /\ collideClassifier sampleA [Route sampleRoot; Route sampleA]
      ≠ collideClassifier sampleB [Route sampleRoot; Route sampleB]).
Proof. split_and!; [reflexivity | reflexivity | reflexivity | discriminate]. Qed.

Lemma getServerBundles_accepts_any_directory_witness :
  exists bundles,
    getServerBundles (sampleConfig (Some escapeClassifier)) = Ok bundles /\
    NoDup (SBC.serverBuildDirectory <$> bundles) /\
    forall leaf, leaf ∈ getLeafRoutes sampleManifest ->
      exists chain,
        getRouteMatches sampleManifest (id leaf) = Ok chain /\
        path.join "/proj/build/server" (escapeClassifier leaf chain)
          ∈ SBC.serverBuildDirectory <$> bundles.
Proof.
  apply (proj2 (getServerBundles_accepts_any_directory sampleManifest
                  "/proj" "/proj/build/server"
                  escapeClassifier collideClassifier) sampleChains).
  repeat constructor.
Defined.

(** ** The trace of a build *)

Lemma launchAll_trace serverBundles : forall tr,
  launchAll serverBundles tr = (tr ++ launchTrace serverBundles, Fulfilled tt).
Proof.
  unfold launchTrace.
  induction serverBundles as [|c rest IH]; intros tr; cbn [launchAll].
  - unfold aret. by rewrite app_nil_r.
  - unfold abind, emit. rewrite IH, fmap_cons, <-app_assoc. done.
Qed.

Lemma await_trace w op tr :
  await w op tr =
  (tr ++ [Invoked op; Settled op (opError w op)],
   match opError w op with
   | None => Fulfilled tt
   | Some message => Rejected (OpError op message)
   end).
Proof.
  unfold await, settle, abind, emit, throw.
  destruct (opError w op); by rewrite <-app_assoc.
Qed.

(** The whole of [build], phase by phase. *)
Lemma build_unfold w viteConfig :
  build w viteConfig [] =
  match ViteConfig.remixPluginResolvedConfig viteConfig with
  | None =>
      ([ConsoleError "Remix Vite plugin not found in Vite config"], Exited 1)
  | Some cfg =>
      match guardError w viteConfig cfg with
      | Some message =>
          (guardTrace w viteConfig cfg,
           Rejected (OpError (Remove (RPC.serverBuildDirectory cfg)) message))
      | None =>
          match viteBuildError w None with
          | Some message =>
              (guardTrace w viteConfig cfg ++ clientTrace w,
               Rejected (OpError (ViteBuild None) message))
          | None =>
              match getServerBundles cfg with
              | Ok serverBundles =>
                  promiseAll w serverBundles ∅ (settleOrder w)
                    (guardTrace w viteConfig cfg ++ clientTrace w ++
                     launchTrace serverBundles)
              | MissingRoute k =>
                  (guardTrace w viteConfig cfg ++ clientTrace w,
                   Rejected (InvariantError k))
              | InvalidArrayLength =>
                  (guardTrace w viteConfig cfg ++ clientTrace w,
                   Rejected RangeError)
              end
          end
      end
  end.
Proof.
  unfold build, extractRemixPluginConfig.
  destruct (ViteConfig.remixPluginResolvedConfig viteConfig) as [cfg|];
    [|reflexivity].
  unfold abind at 1. unfold aret at 1.
  unfold abind at 1. unfold cleanServerBuildDirectory, guardError, guardTrace.
  destruct (shouldClean (cwd w) (ViteConfig.emptyOutDir viteConfig) cfg).
  - rewrite await_trace. cbn [opError app].
    destruct (removeError w (RPC.serverBuildDirectory cfg)); [done|].
    unfold abind at 1. unfold viteBuild. rewrite await_trace.
    cbn [opError app]. unfold clientTrace.
    destruct (viteBuildError w None); [done|].
    unfold abind at 1. unfold call.
    destruct (getServerBundles cfg) as [bundles|k|]; [|done|done].
    unfold aret at 1. unfold abind. by rewrite launchAll_trace.
  - unfold aret at 1. unfold abind at 1. unfold viteBuild.
    rewrite await_trace. cbn [opError app]. unfold clientTrace.
    destruct (viteBuildError w None); [done|].
    unfold abind at 1. unfold call.
    destruct (getServerBundles cfg) as [bundles|k|]; [|done|done].
    unfold aret at 1. unfold abind. by rewrite launchAll_trace.
Qed.

Lemma promiseAll_extends w launched order : forall settled tr,
  exists ext,
    (promiseAll w launched settled order tr).1 = tr ++ ext /\
    Forall (fun ev => phase ev = 3) ext.
Proof.
  induction order as [|i order IH]; intros settled tr; cbn [promiseAll].
  - destruct (decide (size settled = length launched));
      exists []; by rewrite app_nil_r.
  - destruct (decide (size settled = length launched));
      [exists []; by rewrite app_nil_r|].
    destruct (launched !! i) as [c|]; [|apply IH].
    destruct (decide (i ∈ settled)); [apply IH|].
    unfold abind, settle. cbn [opError].
    destruct (viteBuildError w (Some c)) as [message|].
    + unfold abind, emit, throw. cbn. eexists [_]. split; [done|].
      by repeat constructor.
    + unfold emit.
      destruct (IH ({[i]} ∪ settled) (tr ++ [Settled (ViteBuild (Some c)) None]))
        as (ext & -> & Hext).
      eexists (_ :: ext). rewrite <-app_assoc. split; [done|].
      by constructor.
Qed.

Lemma guardTrace_phase w viteConfig cfg :
  Forall (fun ev => phase ev = 1) (guardTrace w viteConfig cfg).
Proof. unfold guardTrace. case_match; by repeat constructor. Qed.

Lemma clientTrace_phase w : Forall (fun ev => phase ev = 2) (clientTrace w).
Proof. by repeat constructor. Qed.

Lemma launchTrace_phase bundles :
  Forall (fun ev => phase ev = 3) (launchTrace bundles).
Proof. unfold launchTrace. apply Forall_fmap, Forall_forall. done. Qed.




(** How a build ends, with its trace: without plugin configuration, with
    a failed removal, with a failed client build, or after the client
    build. *)
Lemma build_cases w viteConfig :
  (ViteConfig.remixPluginResolvedConfig viteConfig = None /\
   build w viteConfig [] =
   ([ConsoleError "Remix Vite plugin not found in Vite config"], Exited 1)) \/
  exists cfg,
    ViteConfig.remixPluginResolvedConfig viteConfig = Some cfg /\
    ((exists message,
        guardError w viteConfig cfg = Some message /\
        build w viteConfig [] =
        (guardTrace w viteConfig cfg,
         Rejected (OpError (Remove (RPC.serverBuildDirectory cfg)) message))) \/
     (guardError w viteConfig cfg = None /\
      exists message,
        viteBuildError w None = Some message /\
        build w viteConfig [] =
        (guardTrace w viteConfig cfg ++ clientTrace w,
         Rejected (OpError (ViteBuild None) message))) \/
     (guardError w viteConfig cfg = None /\
      viteBuildError w None = None /\
      exists server st,
        build w viteConfig [] =
        (guardTrace w viteConfig cfg ++ clientTrace w ++ server, st) /\
        Forall (fun ev => phase ev = 3) server)).
Proof.
  rewrite build_unfold.
  destruct (ViteConfig.remixPluginResolvedConfig viteConfig) as [cfg|];
    [right|by left].
  exists cfg. split; [done|].
  destruct (guardError w viteConfig cfg) as [m1|]; [left; by exists m1|].
  right. destruct (viteBuildError w None) as [m2|].
  { left. split; [done|]. by exists m2. }
  right. split_and!; [done..|].
  destruct (getServerBundles cfg) as [bundles|k|].
  - destruct (promiseAll_extends w bundles (settleOrder w) ∅
                (guardTrace w viteConfig cfg ++ clientTrace w ++
                 launchTrace bundles)) as (ext & Hext & Hphase).
    eexists (launchTrace bundles ++ ext), _. split.
    + rewrite (surjective_pairing (promiseAll _ _ _ _ _)), Hext.
      by rewrite <-!app_assoc.
    + apply Forall_app. split; [apply launchTrace_phase | done].
  - eexists [], _. by rewrite !app_nil_r.
  - eexists [], _. by rewrite !app_nil_r.
Qed.

Lemma guardTrace_cases w viteConfig cfg :
  (shouldClean (cwd w) (ViteConfig.emptyOutDir viteConfig) cfg = false /\
   guardTrace w viteConfig cfg = [] /\ guardError w viteConfig cfg = None) \/
  (shouldClean (cwd w) (ViteConfig.emptyOutDir viteConfig) cfg = true /\
   guardTrace w viteConfig cfg =
   [Invoked (Remove (RPC.serverBuildDirectory cfg));
    Settled (Remove (RPC.serverBuildDirectory cfg))
      (guardError w viteConfig cfg)] /\
   guardError w viteConfig cfg = removeError w (RPC.serverBuildDirectory cfg)).
Proof.
  unfold guardTrace, guardError.
  destruct (shouldClean (cwd w) (ViteConfig.emptyOutDir viteConfig) cfg);
    [by right | by left].
Qed.






Lemma elem_of_phase (l : list Event) p ev :
  Forall (fun x => phase x = p) l -> ev ∈ l -> phase ev = p.
Proof. rewrite Forall_forall. auto. Qed.

(** The events of the guard and of the client build, one by one. *)
Lemma early_events w viteConfig cfg (rest : list Event) i ev :
  (guardTrace w viteConfig cfg ++ rest) !! i = Some ev ->
  (i = 0 /\ ev = Invoked (Remove (RPC.serverBuildDirectory cfg)) /\
   shouldClean (cwd w) (ViteConfig.emptyOutDir viteConfig) cfg = true /\
   (guardTrace w viteConfig cfg ++ rest) !! 1
   = Some (Settled (Remove (RPC.serverBuildDirectory cfg))
             (guardError w viteConfig cfg)) /\
   guardError w viteConfig cfg = removeError w (RPC.serverBuildDirectory cfg)) \/
  (i = 1 /\ ev = Settled (Remove (RPC.serverBuildDirectory cfg))
                   (guardError w viteConfig cfg) /\
   shouldClean (cwd w) (ViteConfig.emptyOutDir viteConfig) cfg = true /\
   length (guardTrace w viteConfig cfg) = 2) \/
  (exists j, i = length (guardTrace w viteConfig cfg) + j /\
     rest !! j = Some ev).
Proof.
  destruct (guardTrace_cases w viteConfig cfg)
    as [(Hsc & -> & Hg)|(Hsc & -> & Hg)]; intros Hi.
  - right. right. by exists i.
  - destruct i as [|[|i]]; cbn in Hi.
    + left. by simplify_eq.
    + right. left. by simplify_eq.
    + right. right. by exists i.
Qed.




(** ** Waiting for the server builds *)

Lemma size_settled_lt (settled : gset nat) n i :
  i < n -> (forall j, j ∈ settled -> j < n /\ j ≠ i) -> size settled < n.
Proof.
  intros Hi Hall.
  assert (Hsub : settled ⊆ set_seq 0 n ∖ {[ i ]}).
  { intros j Hj. destruct (Hall j Hj) as [? ?].
    apply elem_of_difference. split.
    - apply elem_of_set_seq. lia.
    - by rewrite elem_of_singleton. }
  apply subseteq_size in Hsub. rewrite size_difference in Hsub.
  - rewrite size_set_seq, size_singleton in Hsub. lia.
  - intros j ->%elem_of_singleton. apply elem_of_set_seq. lia.
Qed.

Lemma promiseAll_first_failure w launched i b message post pre :
  forall settled tr,
  launched !! i = Some b ->
  viteBuildError w (Some b) = Some message ->
  NoDup (pre ++ [i]) ->
  (forall j, j ∈ pre ->
     exists c, launched !! j = Some c /\ viteBuildError w (Some c) = None) ->
  (forall j, j ∈ settled ->
     j < length launched /\ j ≠ i /\ j ∉ pre) ->
  promiseAll w launched settled (pre ++ i :: post) tr =
  (tr ++ fulfilledTrace launched pre ++ [Settled (ViteBuild (Some b)) (Some message)],
   Rejected (OpError (ViteBuild (Some b)) message)).
Proof.
  induction pre as [|j pre IH]; intros settled tr Hb Hfail Hnd Hok Hset;
    cbn [app promiseAll].
  - rewrite decide_False.
    2:{ assert (size settled < length launched); [|lia].
        apply (size_settled_lt _ _ i); [by eapply lookup_lt_Some|].
        intros j Hj. destruct (Hset j Hj) as (? & ? & _). done. }
    rewrite Hb. rewrite decide_False.
    2:{ intros Hi. destruct (Hset i Hi) as (_ & ? & _). done. }
    unfold abind, settle. cbn [opError]. rewrite Hfail.
    unfold abind, emit, throw. done.
  - rewrite decide_False.
    2:{ assert (size settled < length launched); [|lia].
        apply (size_settled_lt _ _ i); [by eapply lookup_lt_Some|].
        intros j' Hj'. destruct (Hset j' Hj') as (? & ? & _). done. }
    destruct (Hok j) as (c & Hc & Hcok); [left|]. rewrite Hc.
    rewrite decide_False.
    2:{ intros Hj. destruct (Hset j Hj) as (_ & _ & Hn). apply Hn. left. }
    unfold abind at 1. unfold settle. cbn [opError]. rewrite Hcok.
    unfold emit at 1. cbn [app] in Hnd. apply NoDup_cons in Hnd as [Hj Hnd].
    rewrite IH; [|done|done|done| |].
    + unfold fulfilledTrace. rewrite fmap_cons, Hc, <-!app_assoc. done.
    + intros j' Hj'. apply Hok. by right.
    + intros j' [->%elem_of_singleton|Hj']%elem_of_union.
      * split_and!.
        -- by eapply lookup_lt_Some.
        -- intros ->. apply Hj. apply elem_of_app. right. left.
        -- intros Hin. apply Hj. apply elem_of_app. by left.
      * destruct (Hset j' Hj') as (? & ? & Hn). split_and!; [done|done|].
        intros Hin. apply Hn. by right.
Qed.

(** C1, as amended: when guard and client build succeed and the server
    build at position [i] is the first, in the order of settlement, to
    fail, the build is rejected at that moment with that build's error
    alone: its trace ends there, after the settlements of the builds that
    succeeded before; the builds due to settle later are not waited for. *)
Theorem build_rejects_at_first_settled_failure
    (w : World) (viteConfig : ViteConfig.t) (cfg : RPC.t)
    (serverBundles : list SBC.t) (pre post : list nat) (i : nat)
    (b : SBC.t) (message : string) :
  ViteConfig.remixPluginResolvedConfig viteConfig = Some cfg ->
  guardError w viteConfig cfg = None ->
  viteBuildError w None = None ->
  getServerBundles cfg = Ok serverBundles ->
  settleOrder w = pre ++ i :: post ->
  NoDup (pre ++ [i]) ->
  (forall j, j ∈ pre ->
     exists c, serverBundles !! j = Some c /\
               viteBuildError w (Some c) = None) ->
  serverBundles !! i = Some b ->
  viteBuildError w (Some b) = Some message ->
  build w viteConfig [] =
  (guardTrace w viteConfig cfg ++ clientTrace w ++ launchTrace serverBundles ++
   fulfilledTrace serverBundles pre ++
   [Settled (ViteBuild (Some b)) (Some message)],
   Rejected (OpError (ViteBuild (Some b)) message)).
Proof.
  intros Hcfg Hg Hc Hb Horder Hnd Hok Hi Hfail.
  rewrite build_unfold, Hcfg, Hg, Hc, Hb, Horder.
  rewrite (promiseAll_first_failure w serverBundles i b message post pre);
    [|done|done|done|done|].
  - by rewrite <-!app_assoc.
  - intros j Hj. by apply not_elem_of_empty in Hj.
Qed.

Lemma build_rejects_at_first_settled_failure_witness :
  build bothFailWorld perLeafViteConfig [] =
  (guardTrace bothFailWorld perLeafViteConfig
     (sampleConfig (Some perLeafClassifier)) ++
   clientTrace bothFailWorld ++ launchTrace [bundleA; bundleB] ++
   fulfilledTrace [bundleA; bundleB] [] ++
   [Settled (ViteBuild (Some bundleA)) (Some "boom-a")],
   Rejected (OpError (ViteBuild (Some bundleA)) "boom-a")).
Proof.
  apply (build_rejects_at_first_settled_failure bothFailWorld
           perLeafViteConfig (sampleConfig (Some perLeafClassifier))
           [bundleA; bundleB] [] [1] 0 bundleA "boom-a").
  - reflexivity.
  - reflexivity.
  - reflexivity.
  - reflexivity.
  - reflexivity.
  - apply (bool_decide_unpack _). by vm_compute.
  - intros j Hj. by apply elem_of_nil in Hj.
  - reflexivity.
  - reflexivity.
Defined.

(** C1 as stated fails: with two server builds failing with different
    messages, the build is rejected with the first one's error, while the
    second build, launched and bound to fail, has not settled, and its
    error is not part of what is reported. *)
Lemma build_reports_first_failure_only :
  Invoked (ViteBuild (Some bundleB))
    ∈ (build bothFailWorld perLeafViteConfig []).1 /\
  viteBuildError bothFailWorld (Some bundleB) = Some "boom-b" /\
  Forall (fun ev => forall e, ev ≠ Settled (ViteBuild (Some bundleB)) e)
    (build bothFailWorld perLeafViteConfig []).1 /\
  (build bothFailWorld perLeafViteConfig []).2
    = Rejected (OpError (ViteBuild (Some bundleA)) "boom-a").
Proof.
  split_and!.
  - apply (bool_decide_unpack _). by vm_compute.
  - reflexivity.
  - vm_compute. repeat constructor; intros e; discriminate.
  - reflexivity.
Qed.

(** When every server build succeeds and each settles once, the wait ends
    with the last settlement and the build is fulfilled. *)
Lemma promiseAll_all_fulfilled w launched order :
  forall settled tr,
  NoDup order ->
  (forall j, j ∈ order ->
     (j ∉ settled) /\
     exists c, launched !! j = Some c /\ viteBuildError w (Some c) = None) ->
  size settled + length order = length launched ->
  promiseAll w launched settled order tr =
  (tr ++ fulfilledTrace launched order, Fulfilled tt).
Proof.
  induction order as [|i order IH]; intros settled tr Hnd Hok Hsize;
    cbn [promiseAll].
  - cbn [length] in Hsize. rewrite decide_True by lia.
    unfold aret, fulfilledTrace. by rewrite fmap_nil, app_nil_r.
  - cbn [length] in Hsize. rewrite decide_False by lia.
    destruct (Hok i) as (Hi & c & Hc & Hcok); [left|].
    rewrite Hc. rewrite decide_False by done.
    unfold abind at 1. unfold settle. cbn [opError]. rewrite Hcok.
    unfold emit at 1. apply NoDup_cons in Hnd as [Hin Hnd].
    rewrite IH; [|done| |].
    + unfold fulfilledTrace. by rewrite fmap_cons, Hc, <-app_assoc.
    + intros j Hj. destruct (Hok j) as (Hjs & Hjc); [by right|].
      split; [|done]. rewrite elem_of_union, elem_of_singleton.
      intros [->|?]; done.
    + rewrite size_union by (apply disjoint_singleton_l; done).
      rewrite size_singleton. lia.
Qed.

Example build_all_fulfilled_sample :
  build quietWorld perLeafViteConfig [] =
  ([Invoked (Remove "/proj/build/server");
    Settled (Remove "/proj/build/server") None;
    Invoked (ViteBuild None); Settled (ViteBuild None) None;
    Invoked (ViteBuild (Some bundleA)); Invoked (ViteBuild (Some bundleB));
    Settled (ViteBuild (Some bundleA)) None;
    Settled (ViteBuild (Some bundleB)) None],
   Fulfilled tt).
Proof. reflexivity. Qed.

(** ** A missing route ends the build *)

Lemma assignLeaves_missing routes dir f leaf rest k done :
  forall sb,
  Forall (fun l => exists chain, getRouteMatches routes (id l) = Ok chain)
    done ->
  getRouteMatches routes (id leaf) = MissingRoute k ->
  assignLeaves routes dir f sb (done ++ leaf :: rest) = MissingRoute k.
Proof.
  induction done as [|l done IH]; intros sb Hdone Hleaf;
    cbn [app assignLeaves]; unfold assignLeaf.
  - by rewrite Hleaf.
  - apply Forall_cons in Hdone as [[chain Hc] Hdone]. rewrite Hc.
    cbn [obind]. by apply IH.
Qed.

Lemma build_missing_route w viteConfig cfg k :
  ViteConfig.remixPluginResolvedConfig viteConfig = Some cfg ->
  getServerBundles cfg = MissingRoute k ->
  (exists e, (build w viteConfig []).2 = Rejected e /\
     (guardError w viteConfig cfg = None -> viteBuildError w None = None ->
      e = InvariantError k)) /\
  (forall c, Invoked (ViteBuild (Some c)) ∉ (build w viteConfig []).1).
Proof.
  intros Hcfg Hm. rewrite build_unfold, Hcfg, Hm.
  pose proof (guardTrace_phase w viteConfig cfg) as Hg.
  pose proof (clientTrace_phase w) as Hc.
  assert (Hno : forall c,
            Invoked (ViteBuild (Some c))
              ∉ guardTrace w viteConfig cfg ++ clientTrace w).
  { intros c [Hin|Hin]%elem_of_app.
    - by apply (elem_of_phase _ _ _ Hg) in Hin.
    - by apply (elem_of_phase _ _ _ Hc) in Hin. }
  destruct (guardError w viteConfig cfg) as [m1|];
    [|destruct (viteBuildError w None) as [m2|]]; cbn [fst snd].
  - split; [by eexists|]. intros c Hin. apply (Hno c), elem_of_app. by left.
  - split; [by eexists|]. done.
  - split; [by eexists|]. done.
Qed.

(** C8, as amended: on a walk that looks up no id absent from the manifest
    that names a member of [Object.prototype], [getRouteMatches] throws for
    a route id exactly when the walk looks that id up (it is the start or
    the [parentId] of a route found, and not empty) and the manifest has no
    route under it; an empty id is never looked up, and the walk from an
    empty start returns the empty chain.  When the error is thrown for a
    leaf while the bundles are assigned (the leaves before it having their
    chains), [getServerBundles] throws the same error, [build] is rejected
    (with that error, unless guard or client build had failed already) and
    no server build is invoked. *)
Theorem getRouteMatches_missing_route_is_fatal
    (routes : RouteManifest) (routeId k : string) :
  (forall k', Encounters routes routeId k' -> ODict.get routes k' = None ->
     k' ∉ JSObject.objectPrototypeKeys) ->
  (getRouteMatches routes routeId = MissingRoute k
   <-> Encounters routes routeId k /\ ODict.get routes k = None)
  /\
  getRouteMatches routes "" = Ok []
  /\
  (forall w viteConfig cfg f done leaf rest,
     ViteConfig.remixPluginResolvedConfig viteConfig = Some cfg ->
     RPC.routes cfg = routes ->
     RPC.serverBundleDirectory cfg = Some f ->
     getLeafRoutes routes = done ++ leaf :: rest ->
     Forall (fun l => exists chain, getRouteMatches routes (id l) = Ok chain)
       done ->
     id leaf = routeId ->
     getRouteMatches routes routeId = MissingRoute k ->
     getServerBundles cfg = MissingRoute k /\
     (exists e, (build w viteConfig []).2 = Rejected e /\
        (guardError w viteConfig cfg = None ->
         viteBuildError w None = None -> e = InvariantError k)) /\
     (forall c, Invoked (ViteBuild (Some c)) ∉ (build w viteConfig []).1)).
Proof.
  intros Hown. split_and!.
  - rewrite getRouteMatches_MissingRoute_iff, lookup_None. split.
    + by intros (? & ? & ?).
    + intros [Henc Hnone]. split_and!; [done | done | by apply Hown].
  - by rewrite (getRouteMatches_Walk routes "" [] AtRoot) by by constructor.
  - intros w viteConfig cfg f done leaf rest Hcfg Hr Hf Hleaves Hdone Hid Hm.
    assert (Hsb : getServerBundles cfg = MissingRoute k).
    { unfold getServerBundles. rewrite Hf, Hr, Hleaves.
      rewrite (assignLeaves_missing _ _ _ _ _ k); [done|done|].
      by rewrite Hid. }
    split; [done|]. by apply build_missing_route.
Qed.

Lemma corruptManifest_Encounters k :
  Encounters corruptManifest "child" k -> k = "child" \/ k = "ghost".
Proof.
  induction 1 as [|k r p Henc IH Hget Hp Hne]; [by left|].
  destruct IH as [Hk|Hk]; subst k; vm_compute in Hget; simplify_eq.
  vm_compute in Hp. simplify_eq. by right.
Qed.

Lemma getRouteMatches_missing_route_is_fatal_witness :
  (getRouteMatches corruptManifest "child" = MissingRoute "ghost"
   <-> Encounters corruptManifest "child" "ghost" /\
       ODict.get corruptManifest "ghost" = None)
  /\
  getRouteMatches corruptManifest "" = Ok []
  /\
  getServerBundles
    (RPC.mk corruptManifest "/proj" "/proj/build/server"
       (Some perLeafClassifier)) = MissingRoute "ghost" /\
  (exists e, (build quietWorld corruptViteConfig []).2 = Rejected e /\
     (guardError quietWorld corruptViteConfig
        (RPC.mk corruptManifest "/proj" "/proj/build/server"
           (Some perLeafClassifier)) = None ->
      viteBuildError quietWorld None = None -> e = InvariantError "ghost")) /\
  (forall c,
     Invoked (ViteBuild (Some c)) ∉ (build quietWorld corruptViteConfig []).1).
Proof.
  destruct (getRouteMatches_missing_route_is_fatal corruptManifest
              "child" "ghost") as (Hiff & Hempty & Hfatal).
  { intros k' Hk%corruptManifest_Encounters Hnone.
    destruct Hk as [Hk|Hk]; subst k'; [done|].
    apply (bool_decide_unpack _). by vm_compute. }
  split; [exact Hiff|]. split; [exact Hempty|].
  apply (Hfatal quietWorld corruptViteConfig _ perLeafClassifier
           [sampleRoot] ghostRoute []).
  - reflexivity.
  - reflexivity.
  - reflexivity.
  - reflexivity.
  - constructor; [by eexists | constructor].
  - reflexivity.
  - reflexivity.
Defined.

(** C8 as stated fails.  The empty start id is absent from the manifest,
    and the call returns the empty chain.  And an id met on the walk that
    is absent from the manifest but names a member of [Object.prototype]
    is found there: the call returns a chain that begins with that member,
    the bundles are returned and the build is fulfilled. *)
Lemma getRouteMatches_absent_id_not_fatal :
  (ODict.get sampleManifest "" = None /\
   getRouteMatches sampleManifest "" = Ok []) /\
  (ODict.get strayManifest "child" = Some strayRoute /\
   parentId strayRoute = Some "toString" /\
   ODict.get strayManifest "toString" = None /\
   getRouteMatches strayManifest "child"
   = Ok [Inherited "toString"; Route strayRoute] /\
   getServerBundles
     (RPC.mk strayManifest "/proj" "/proj/build/server"
        (Some perLeafClassifier))
   = Ok [SBC.mk (JSObject.mk [("root", Route sampleRoot)] None)
           "/proj/build/server/root";
         SBC.mk (JSObject.mk [("undefined", Inherited "toString");
                              ("child", Route strayRoute)] None)
           "/proj/build/server/child"] /\
   (build quietWorld
      (ViteConfig.mk None
         (Some (RPC.mk strayManifest "/proj" "/proj/build/server"
                  (Some perLeafClassifier)))) []).2 = Fulfilled tt).
Proof. split_and!; reflexivity. Qed.

(** The build of the corrupt sample: the guard and the client build have
    run when the error is thrown. *)
Example build_corrupt_sample :
  build quietWorld corruptViteConfig [] =
  ([Invoked (Remove "/proj/build/server");
    Settled (Remove "/proj/build/server") None;
    Invoked (ViteBuild None); Settled (ViteBuild None) None],
   Rejected (InvariantError "ghost")).
Proof. reflexivity. Qed.

(** ** The output directory guard *)

Lemma shouldClean_spec cwd emptyOutDir cfg :
  shouldClean cwd emptyOutDir cfg = true <->
  emptyOutDir = Some true \/
  (emptyOutDir = None /\
   startsWith ".."
     (path.relative cwd (RPC.rootDirectory cfg) (RPC.serverBuildDirectory cfg))
   = false /\
   path.isAbsolute
     (path.relative cwd (RPC.rootDirectory cfg) (RPC.serverBuildDirectory cfg))
   = false).
Proof.
  unfold shouldClean, isWithinRoot. destruct emptyOutDir as [[|]|].
  - split; [by left | done].
  - split; [done | intros [?|[? _]]; done].
  - rewrite andb_true_iff, !negb_true_iff. split.
    + intros [? ?]. right. done.
    + intros [?|(_ & ? & ?)]; done.
Qed.

Lemma cleanServerBuildDirectory_trace w viteConfig cfg :
  (cleanServerBuildDirectory w viteConfig cfg []).1 = guardTrace w viteConfig cfg.
Proof.
  unfold cleanServerBuildDirectory, guardTrace.
  destruct (shouldClean (cwd w) (ViteConfig.emptyOutDir viteConfig) cfg);
    [|done].
  by rewrite await_trace.
Qed.

(** The guard on the usual layouts: a directory under the root is removed,
    one outside is kept, and the root itself counts as inside. *)
Example isWithinRoot_samples :
  isWithinRoot "/" "/proj" "/proj/build/server" = true /\
  isWithinRoot "/" "/proj" "/srv/shared/build" = false /\
  isWithinRoot "/" "/proj" "/proj/../elsewhere" = false /\
  isWithinRoot "/" "/proj" "/proj" = true.
Proof. split_and!; reflexivity. Qed.

(** Where the guard and the segments agree: the relative path is made of
    one [".."] per segment of the root left after the common part, then of
    the rest of the directory; so the guard answers by the first segment
    of that path. *)
Lemma prefix_String a s1 b s2 :
  String.prefix (String a s1) (String b s2) =
  if Ascii.ascii_dec a b then String.prefix s1 s2 else false.
Proof. reflexivity. Qed.

Lemma prefix_empty s : String.prefix "" s = true.
Proof. by destruct s. Qed.

Lemma append_String a s r : String a s +:+ r = String a (s +:+ r).
Proof. reflexivity. Qed.

Lemma startsWith_joinSegments x l :
  x ≠ "." ->
  startsWith ".." (path.joinSegments (x :: l)) = startsWith ".." x.
Proof.
  intros Hx. unfold startsWith. destruct l as [|y l]; [done|].
  cbn [path.joinSegments]. generalize (path.joinSegments (y :: l)) as r.
  intros r. destruct x as [|a [|b x]]; [done| |].
  - rewrite append_String, !prefix_String.
    destruct (Ascii.ascii_dec "." a) as [<-|Hne]; done.
  - rewrite !append_String, !prefix_String.
    destruct (Ascii.ascii_dec "." a); [|done].
    destruct (Ascii.ascii_dec "." b); [|done]. by rewrite !prefix_empty.
Qed.

Lemma dropCommon_nil_prefix from : forall to,
  (path.dropCommon from to).1 = [] <-> from `prefix_of` to.
Proof.
  induction from as [|f from IH]; intros to.
  - split; [intros _; apply prefix_nil | by destruct to].
  - destruct to as [|t to]; cbn [path.dropCommon].
    + split; [done|]. intros [k Hk]. discriminate Hk.
    + destruct (decide (f = t)) as [->|Hne].
      * rewrite IH. split; [apply prefix_cons | apply prefix_cons_inv_2].
      * split; [done|]. by intros ?%prefix_cons_inv_1.
Qed.

Lemma isWithinRoot_outside cwd root dir :
  ¬ path.resolveSegments cwd root `prefix_of` path.resolveSegments cwd dir ->
  isWithinRoot cwd root dir = false.
Proof.
  intros Hout. unfold isWithinRoot, path.relative.
  destruct (path.dropCommon (path.resolveSegments cwd root)
              (path.resolveSegments cwd dir)) as [up down] eqn:Hd.
  destruct up as [|u up].
  - exfalso. apply Hout, dropCommon_nil_prefix. by rewrite Hd.
  - cbn [fmap list_fmap app]. by rewrite startsWith_joinSegments.
Qed.

Lemma isAbsolute_snoc cur c :
  path.isAbsolute cur = false -> c ≠ "/"%char ->
  path.isAbsolute (cur +:+ String c "") = false.
Proof.
  intros Hcur Hc. destruct cur as [|a cur]; [|done].
  cbn [String.append path.isAbsolute]. by apply bool_decide_eq_false.
Qed.

Lemma segmentsFrom_relative s : forall cur,
  path.isAbsolute cur = false ->
  Forall (fun seg => path.isAbsolute seg = false) (path.segmentsFrom cur s).
Proof.
  induction s as [|c s IH]; intros cur Hcur; cbn [path.segmentsFrom].
  - by constructor.
  - destruct (decide (c = "/"%char)).
    + constructor; [done | by apply IH].
    + by apply IH, isAbsolute_snoc.
Qed.

Lemma normalizeStep_proper allow res seg :
  Forall properSegment res -> path.isAbsolute seg = false ->
  Forall properSegment (path.normalizeStep allow res seg).
Proof.
  intros Hres Hseg. unfold path.normalizeStep.
  assert (Hdots : Forall properSegment (res ++ [".."])).
  { apply Forall_app. split; [done|]. by repeat constructor. }
  repeat case_decide; try done.
  - destruct (last res); [|by destruct allow].
    case_decide; [by destruct allow|].
    destruct res as [|r res _] using rev_ind; [done|].
    rewrite removelast_last. by apply Forall_app in Hres as [? _].
  - apply Forall_app. split; [done|]. by repeat constructor.
Qed.

Lemma normalizeSegments_proper allow p :
  Forall properSegment (path.normalizeSegments allow p).
Proof.
  unfold path.normalizeSegments, path.segments.
  pose proof (segmentsFrom_relative p "" eq_refl) as Hsegs.
  assert (Hgen : forall res, Forall properSegment res ->
            Forall properSegment
              (foldl (path.normalizeStep allow) res (path.segmentsFrom "" p))).
  { induction Hsegs as [|seg segs Hseg _ IH]; intros res Hres; [done|].
    cbn [foldl]. by apply IH, normalizeStep_proper. }
  apply Hgen. constructor.
Qed.

Lemma dropCommon_proper from : forall to,
  Forall properSegment to -> Forall properSegment (path.dropCommon from to).2.
Proof.
  induction from as [|f from IH]; intros to Hto; [done|].
  destruct to as [|t to]; [done|]. cbn [path.dropCommon].
  case_decide; [|done]. apply IH. by apply Forall_cons in Hto as [_ ?].
Qed.

Lemma isAbsolute_joinSegments x l :
  x ≠ "" ->
  path.isAbsolute (path.joinSegments (x :: l)) = path.isAbsolute x.
Proof.
  intros Hx. destruct l as [|y l]; [done|]. cbn [path.joinSegments].
  by destruct x.
Qed.

(** The guard says "within the root" exactly when the segments of the root
    begin those of the directory and the first segment of the directory
    below the root does not begin with two dots. *)
Lemma isWithinRoot_iff cwd root dir :
  isWithinRoot cwd root dir = true <->
  path.resolveSegments cwd root `prefix_of` path.resolveSegments cwd dir /\
  forall x,
    head (path.dropCommon (path.resolveSegments cwd root)
            (path.resolveSegments cwd dir)).2 = Some x ->
    startsWith ".." x = false.
Proof.
  destruct (decide (path.resolveSegments cwd root
                      `prefix_of` path.resolveSegments cwd dir))
    as [Hin|Hout].
  2:{ rewrite isWithinRoot_outside by done. split; [done | by intros [? _]]. }
  assert (Hdown : Forall properSegment
            (path.dropCommon (path.resolveSegments cwd root)
               (path.resolveSegments cwd dir)).2).
  { apply dropCommon_proper. unfold path.resolveSegments.
    destruct (path.isAbsolute dir); apply normalizeSegments_proper. }
  apply dropCommon_nil_prefix in Hin as Hup.
  unfold isWithinRoot, path.relative.
  destruct (path.dropCommon (path.resolveSegments cwd root)
              (path.resolveSegments cwd dir)) as [up down].
  cbn [fst snd] in *. subst up. cbn [fmap list_fmap app].
  destruct down as [|x down].
  - split; [|done]. intros _. split; [done|]. intros x Hx. discriminate Hx.
  - apply Forall_cons in Hdown as [(Hne & Hdot & Habs) _].
    rewrite startsWith_joinSegments, isAbsolute_joinSegments by done.
    rewrite Habs, andb_true_r, negb_true_iff. cbn [head]. split.
    + intros Hx. split; [done|]. by intros ? [= <-].
    + intros [_ Hx]. by apply Hx.
Qed.

(** C5: the guard removes the directory exactly when the preference is
    [true], or when it is unset and the directory is the root or below it
    with a first segment below the root that does not begin with two dots.
    The last condition is where the code leaves the rule: [isWithinRoot]
    tests the first two characters of the relative path, not its first
    segment, so that [/proj/..cache/server], inside the root [/proj] with
    the relative path [..cache/server], is not removed. *)
Theorem shouldClean_misses_dotted_directory :
  (forall cwd emptyOutDir cfg,
     shouldClean cwd emptyOutDir cfg = true <->
     emptyOutDir = Some true \/
     (emptyOutDir = None /\
      path.resolveSegments cwd (RPC.rootDirectory cfg)
        `prefix_of`
        path.resolveSegments cwd (RPC.serverBuildDirectory cfg) /\
      forall x,
        head (path.dropCommon
                (path.resolveSegments cwd (RPC.rootDirectory cfg))
                (path.resolveSegments cwd (RPC.serverBuildDirectory cfg))).2
          = Some x ->
        startsWith ".." x = false)) /\
  path.resolveSegments "/" (RPC.rootDirectory dottedConfig)
    `prefix_of`
    path.resolveSegments "/" (RPC.serverBuildDirectory dottedConfig) /\
  path.relative "/" (RPC.rootDirectory dottedConfig)
    (RPC.serverBuildDirectory dottedConfig) = "..cache/server" /\
  head (path.segments "..cache/server") = Some "..cache" /\
  shouldClean "/" None dottedConfig = false /\
  (cleanServerBuildDirectory quietWorld (ViteConfig.mk None (Some dottedConfig))
     dottedConfig []).1 = [].
Proof.
  split_and!; try reflexivity.
  - intros cwd emptyOutDir cfg. destruct emptyOutDir as [[|]|];
      cbn [shouldClean].
    + split; [by left | done].
    + split; [done | intros [?|[? _]]; done].
    + rewrite isWithinRoot_iff. split; [intros [? ?]; by right|].
      intros [?|(_ & ? & ?)]; done.
  - exists ["..cache"; "server"]. reflexivity.
Qed.

(** * Further properties *)

(** ** The chain of a route and of its parent *)

Section ChainEquations.
Variable routes : RouteManifest.

Lemma ParentStep_Walk k p visited e :
  ParentStep routes k p -> Walk routes (Some k) visited e ->
  exists r rest, ODict.get routes k = Some r /\ parentId r = Some p /\
    visited = (k, Route r) :: rest /\ Walk routes (Some p) rest e.
Proof.
  intros (Hk & r & Hget & Hp & Hne) Hw. apply lookup_Route in Hget as Hl.
  inversion Hw as [cur Hc|cur k0 Hc Hnone|cur k0 m0 rest e0 Hc Hk0 Hrest];
    simplify_eq.
  - by rewrite truthy_nonempty in Hc.
  - rewrite truthy_nonempty in Hc by done. simplify_eq.
  - rewrite truthy_nonempty in Hc by done. simplify_eq.
    exists r, rest. cbn in Hrest. rewrite Hp in Hrest. done.
Qed.

Lemma Walk_ParentStep k p r rest e :
  ParentStep routes k p -> ODict.get routes k = Some r ->
  Walk routes (Some p) rest e ->
  Walk routes (Some k) ((k, Route r) :: rest) e.
Proof.
  intros (Hk & r' & Hget & Hp & Hne) Hr Hw. simplify_eq.
  econstructor; [by apply truthy_nonempty | by apply lookup_Route |].
  cbn. by rewrite Hp.
Qed.

Lemma ParentPath_Walk k ks k' :
  ParentPath routes k ks k' ->
  forall visited e, Walk routes (Some k) visited e ->
  exists rest, Walk routes (Some k') rest e /\
    length visited = length ks + length rest.
Proof.
  induction 1 as [k|k p ks k' Hstep Hpath IH]; intros visited e Hw.
  - by exists visited.
  - destruct (ParentStep_Walk _ _ _ _ Hstep Hw) as (r & rest & _ & _ & -> & Hrest).
    destruct (IH _ _ Hrest) as (rest' & Hw' & Hlen). exists rest'.
    split; [done|]. cbn [length]. lia.
Qed.

Lemma OnCycle_no_Walk k visited e :
  OnCycle routes k -> ¬ Walk routes (Some k) visited e.
Proof.
  intros [ks Hpath] Hw.
  destruct (ParentPath_Walk _ _ _ Hpath _ _ Hw) as (rest & Hw' & Hlen).
  destruct (Walk_det _ _ _ _ Hw _ _ Hw') as [-> _]. cbn [length] in Hlen. lia.
Qed.

Lemma ReachesCycle_no_Walk s visited e :
  ReachesCycle routes s -> ¬ Walk routes (Some s) visited e.
Proof.
  intros (ks & k & Hpath & Hcycle) Hw.
  destruct (ParentPath_Walk _ _ _ Hpath _ _ Hw) as (rest & Hw' & _).
  by eapply OnCycle_no_Walk.
Qed.

Lemma ParentPath_app k l1 : forall l2 k',
  ParentPath routes k (l1 ++ l2) k' ->
  exists m, ParentPath routes k l1 m /\ ParentPath routes m l2 k'.
Proof.
  revert k. induction l1 as [|x l1 IH]; intros k l2 k' Hp.
  - exists k. split; [constructor | done].
  - rewrite <-app_comm_cons in Hp.
    inversion Hp as [|k0 p ks k0' Hstep Hrest]; simplify_eq.
    destruct (IH _ _ _ Hrest) as (m & H1 & H2). exists m.
    split; [by econstructor | done].
Qed.

Lemma ParentPath_head k x ks k' : ParentPath routes k (x :: ks) k' -> k = x.
Proof. by inversion 1. Qed.

Lemma ParentPath_keys k ks k' :
  ParentPath routes k ks k' -> forall x, x ∈ ks -> x ∈ ODict.keys routes.
Proof.
  induction 1 as [k|k p ks k' (Hk & r & Hget & _) Hpath IH]; intros x Hx.
  - by apply elem_of_nil in Hx.
  - apply elem_of_cons in Hx as [->|Hx]; [|by apply IH].
    apply get_is_Some_keys. by eexists.
Qed.

(** A loop that fills the array has followed as many parent links as the
    array has room. *)
Lemma walk_InvalidArrayLength_path capacity : forall cur acc,
  walk capacity routes cur acc = InvalidArrayLength ->
  exists k ks k', truthy cur = Some k /\ ParentPath routes k ks k' /\
    length ks = capacity.
Proof.
  induction capacity as [|capacity IH]; intros cur acc; rewrite walk_unfold.
  - destruct (truthy cur) as [k|] eqn:Hc; [|done]. intros _.
    exists k, [], k. split_and!; [done | constructor | done].
  - destruct (truthy cur) as [k|] eqn:Hc; [|done].
    destruct (lookup routes k) as [m|] eqn:Hget; [|done].
    intros (p & ks & k' & Hp & Hpath & Hlen)%IH.
    exists k, (k :: ks), k'. split_and!; [done| |by rewrite <-Hlen].
    apply truthy_Some in Hc as [_ Hk]. apply truthy_Some in Hp as [Hp Hne].
    destruct m as [r|name]; [|done]. apply lookup_Route in Hget.
    econstructor; [|done]. split; [done|]. by exists r.
Qed.

Lemma not_NoDup_split (l : list string) :
  ¬ NoDup l -> exists x l1 l2 l3, l = l1 ++ x :: l2 ++ x :: l3.
Proof.
  induction l as [|a l IH]; intros Hnd.
  - destruct Hnd. constructor.
  - destruct (decide (a ∈ l)) as [Hin|Hin].
    + apply list_elem_of_split in Hin as (l2 & l3 & ->).
      by exists a, [], l2, l3.
    + destruct IH as (x & l1 & l2 & l3 & ->).
      { intros Hl. apply Hnd. by constructor. }
      by exists x, (a :: l1), l2, l3.
Qed.

Lemma getRouteMatches_InvalidArrayLength_iff s :
  getRouteMatches routes s = InvalidArrayLength <-> ReachesCycle routes s.
Proof.
  split.
  - intros (k & ks & k' & Hc & Hpath & Hlen)%walk_InvalidArrayLength_path.
    apply truthy_Some in Hc as [[= <-] _].
    destruct (not_NoDup_split ks) as (x & l1 & l2 & l3 & ->).
    { intros Hnd.
      assert (length ks ≤ length routes)%nat; [|lia].
      rewrite <-(length_fmap fst routes).
      apply submseteq_length, NoDup_submseteq; [done|].
      by eapply ParentPath_keys. }
    destruct (ParentPath_app _ _ _ _ Hpath) as (m & H1 & H2).
    pose proof (ParentPath_head _ _ _ _ H2) as ->.
    rewrite app_comm_cons in H2.
    destruct (ParentPath_app _ _ _ _ H2) as (m' & H3 & H4).
    pose proof (ParentPath_head _ _ _ _ H4) as ->.
    exists l1, x. split; [done|]. by exists l2.
  - intros Hcycle. pose proof (getRouteMatches_inv routes s) as Hinv.
    destruct (getRouteMatches routes s) as [chain|k|]; [| |done].
    + destruct Hinv as (visited & Hw & _).
      by destruct (ReachesCycle_no_Walk _ _ _ Hcycle Hw).
    + destruct Hinv as (visited & Hw).
      by destruct (ReachesCycle_no_Walk _ _ _ Hcycle Hw).
Qed.

Lemma ReachesCycle_step k p :
  ParentStep routes k p -> ReachesCycle routes p -> ReachesCycle routes k.
Proof.
  intros Hstep (ks & c & Hpath & Hc). exists (k :: ks), c.
  split; [by econstructor | done].
Qed.

End ChainEquations.

(** X1: the loop computes the recursive definition of the match chain, on
    every manifest: a route whose [parentId] is absent or empty has the
    chain made of itself; a route with a parent has the chain of the parent
    followed by itself, and when the walk from the parent throws, for a
    missing route or for a full array, so does the walk from the route. *)
Theorem getRouteMatches_recursive_equations
    (routes : RouteManifest) (k : string) (r : ConfigRoute) :
  k ≠ "" ->
  ODict.get routes k = Some r ->
  getRouteMatches routes k =
  match truthy (parentId r) with
  | None => Ok [Route r]
  | Some p =>
      match getRouteMatches routes p with
      | Ok chain => Ok (chain ++ [Route r])
      | MissingRoute m => MissingRoute m
      | InvalidArrayLength => InvalidArrayLength
      end
  end.
Proof.
  intros Hk Hget. destruct (truthy (parentId r)) as [p|] eqn:Hp.
  - apply truthy_Some in Hp as [Hp Hne].
    assert (Hstep : ParentStep routes k p) by (split; [done | by exists r]).
    pose proof (getRouteMatches_inv routes p) as Hinv.
    destruct (getRouteMatches routes p) as [chain|m|] eqn:Hres.
    + destruct Hinv as (visited & Hw & ->).
      rewrite (getRouteMatches_Walk _ _ _ _
                 (Walk_ParentStep _ _ _ _ _ _ Hstep Hget Hw)).
      unfold walkResult. by rewrite app_nil_l, fmap_cons, reverse_cons.
    + destruct Hinv as (visited & Hw).
      by rewrite (getRouteMatches_Walk _ _ _ _
                    (Walk_ParentStep _ _ _ _ _ _ Hstep Hget Hw)).
    + apply getRouteMatches_InvalidArrayLength_iff.
      apply (ReachesCycle_step _ _ _ Hstep).
      by apply getRouteMatches_InvalidArrayLength_iff.
  - rewrite (getRouteMatches_Walk routes k [(k, Route r)] AtRoot); [done|].
    econstructor; [by apply truthy_nonempty | by apply lookup_Route |].
    by constructor.
Qed.

Lemma getRouteMatches_recursive_equations_witness :
  getRouteMatches sampleManifest "a" =
  match truthy (parentId sampleA) with
  | None => Ok [Route sampleA]
  | Some p =>
      match getRouteMatches sampleManifest p with
      | Ok chain => Ok (chain ++ [Route sampleA])
      | MissingRoute m => MissingRoute m
      | InvalidArrayLength => InvalidArrayLength
      end
  end.
Proof.
  apply (getRouteMatches_recursive_equations sampleManifest "a" sampleA).
  - discriminate.
  - reflexivity.
Defined.

(** X2: on every manifest, a chain that is returned is made of routes of
    the manifest, found under distinct keys, after at most one member
    inherited from [Object.prototype] under a name the manifest lacks; it
    has at most one element more than the manifest has routes; it is empty
    only for the empty id, and otherwise ends with the value of
    [routes[routeId]]. *)
Theorem getRouteMatches_chain_within_manifest
    (routes : RouteManifest) (routeId : string) (chain : list Match) :
  getRouteMatches routes routeId = Ok chain ->
  (length chain ≤ S (length routes))%nat /\
  (exists (own : list (string * ConfigRoute)) (inherited : list Match),
     chain = inherited ++ (Route <$> reverse own.*2) /\
     NoDup own.*1 /\
     (length own ≤ length routes)%nat /\
     (forall k r, (k, r) ∈ own -> ODict.get routes k = Some r) /\
     (inherited = [] \/
      exists name, inherited = [Inherited name] /\
        ODict.get routes name = None /\
        name ∈ JSObject.objectPrototypeKeys)) /\
  (routeId = "" <-> chain = []) /\
  (routeId ≠ "" ->
   exists m, lookup routes routeId = Some m /\ last chain = Some m).
Proof.
  intros Hres. pose proof (getRouteMatches_inv routes routeId) as Hinv.
  rewrite Hres in Hinv. destruct Hinv as (visited & Hw & ->).
  split_and!.
  - rewrite length_reverse, length_fmap. by eapply Walk_length.
  - destruct (Walk_shape _ _ _ _ Hw) as (own & rest & Hv & Hown & Hrest).
    assert (Hnd : NoDup own.*1).
    { apply Walk_NoDup in Hw. rewrite Hv, fmap_app in Hw.
      apply NoDup_app in Hw as [Hnd _].
      by rewrite <-list_fmap_compose in Hnd. }
    exists own, (reverse rest.*2). split_and!.
    + rewrite Hv, fmap_app, reverse_app. f_equal.
      rewrite <-list_fmap_compose, fmap_reverse, <-list_fmap_compose. done.
    + done.
    + rewrite <-(length_fmap fst own), <-(length_fmap fst routes).
      apply submseteq_length, NoDup_submseteq; [done|].
      intros k ([k' r] & -> & Hin)%list_elem_of_fmap.
      apply Hown, get_Some_elem in Hin. apply list_elem_of_fmap.
      by exists (k', r).
    + done.
    + destruct Hrest as [->|(name & -> & _ & Hnone & Hin)]; [by left|].
      right. by exists name.
  - split.
    + intros ->. inversion Hw as [| |cur k r rest e Hc]; simplify_eq; done.
    + intros Hnil. destruct visited as [|[k r] rest].
      * inversion Hw as [cur Hc| |]; simplify_eq.
        destruct (decide (routeId = "")) as [|Hne]; [done|].
        by rewrite truthy_nonempty in Hc.
      * rewrite fmap_cons, reverse_cons in Hnil.
        by apply app_nil in Hnil as [_ ?].
  - intros Hne.
    inversion Hw as [cur Hc| |cur k m rest e Hc Hk Hrest]; simplify_eq.
    + by rewrite truthy_nonempty in Hc.
    + rewrite truthy_nonempty in Hc by done. simplify_eq.
      exists m. split; [done|]. by rewrite last_reverse.
Qed.

Lemma getRouteMatches_chain_within_manifest_witness :
  (length [Inherited "toString"; Route strayRoute]
   ≤ S (length strayManifest))%nat /\
  (exists (own : list (string * ConfigRoute)) (inherited : list Match),
     [Inherited "toString"; Route strayRoute]
     = inherited ++ (Route <$> reverse own.*2) /\
     NoDup own.*1 /\
     (length own ≤ length strayManifest)%nat /\
     (forall k r, (k, r) ∈ own -> ODict.get strayManifest k = Some r) /\
     (inherited = [] \/
      exists name, inherited = [Inherited name] /\
        ODict.get strayManifest name = None /\
        name ∈ JSObject.objectPrototypeKeys)) /\
  ("child" = "" <-> [Inherited "toString"; Route strayRoute] = []) /\
  ("child" ≠ "" ->
   exists m, lookup strayManifest "child" = Some m /\
     last [Inherited "toString"; Route strayRoute] = Some m).
Proof.
  apply (getRouteMatches_chain_within_manifest strayManifest "child").
  reflexivity.
Defined.

(** X3: the loop of [getRouteMatches] fills the array, and the call ends
    with the [RangeError] of the [push], exactly when the parent links from
    the given id lead into a cycle; the capacity of the array plays no part
    as long as it exceeds the number of routes. *)
Theorem getRouteMatches_overflows_iff_cycle
    (routes : RouteManifest) (routeId : string) :
  (getRouteMatches routes routeId = InvalidArrayLength
   <-> ReachesCycle routes routeId) /\
  (forall capacity, length routes < capacity ->
     walk capacity routes (Some routeId) [] = getRouteMatches routes routeId).
Proof.
  split; [apply getRouteMatches_InvalidArrayLength_iff|].
  intros capacity. apply walk_capacity.
Qed.

Example getRouteMatches_cyclic_sample :
  getRouteMatches cyclicManifest "z" = InvalidArrayLength /\
  getLeafRoutes cyclicManifest = [mkRoute "z" (Some "x") "z.tsx"].
Proof. split; reflexivity. Qed.
(** ** Leaves, chains and bundles of well-formed manifests *)

Section BundleFacts.
Variable routes : RouteManifest.
Hypothesis Hwf : WellFormed routes.

Lemma leaf_isLeafKey leaf :
  leaf ∈ getLeafRoutes routes -> isLeafKey routes (id leaf).
Proof.
  intros (k & Hin & Hk)%elem_of_getLeafRoutes.
  by rewrite (wf_key_is_id _ Hwf _ _ Hin).
Qed.

Lemma Walk_inner_has_child cur visited e k m :
  Walk routes cur visited e -> (k, m) ∈ visited ->
  head visited = Some (k, m) \/
  exists k1 r1, ODict.get routes k1 = Some r1 /\ parentId r1 = Some k.
Proof.
  intros Hw Hin. apply list_elem_of_split in Hin as (l1 & l2 & ->).
  destruct l1 as [|e1 l1 _] using rev_ind; [by left|]. right.
  destruct e1 as [k1 m1]. rewrite <-app_assoc in Hw. cbn [app] in Hw.
  apply Walk_suffix in Hw.
  inversion Hw as [| |cur' k' m' rest e' Hc Hk Hrest]; simplify_eq.
  inversion Hrest as [| |cur2 k2 m2 rest2 e2 Hc2 Hk2 Hrest2]; simplify_eq.
  destruct m1 as [r1|name]; [|done]. cbn in Hc2.
  exists k1, r1. split; [by apply lookup_Route|].
  by apply truthy_Some in Hc2 as [? _].
Qed.

Lemma leaf_only_on_own_chain leaf k chain :
  leaf ∈ getLeafRoutes routes ->
  getRouteMatches routes k = Ok chain -> Route leaf ∈ chain -> k = id leaf.
Proof.
  intros Hleaf Hres Hin. pose proof (getRouteMatches_inv routes k) as Hinv.
  rewrite Hres in Hinv. destruct Hinv as (visited & Hw & ->).
  apply elem_of_reverse, list_elem_of_fmap in Hin as ([kl m] & Hm & Hin).
  cbn [snd] in Hm. subst m.
  destruct (Walk_routes _ _ _ _ _ _ Hw Hin) as [Hget _].
  rewrite (wf_get_id _ Hwf _ _ Hget).
  destruct (Walk_inner_has_child _ _ _ _ _ Hw Hin)
    as [Hhead|(k1 & r1 & Hg1 & Hp1)].
  - destruct visited as [|e0 rest]; [done|]. cbn in Hhead. simplify_eq.
    inversion Hw as [| |cur k' r' rest' e' Hc]; simplify_eq.
    by apply truthy_Some in Hc as [[= ->] _].
  - apply leaf_isLeafKey in Hleaf. rewrite (wf_get_id _ Hwf _ _ Hget) in Hleaf.
    unfold isLeafKey in Hleaf. rewrite Forall_forall in Hleaf.
    by destruct (Hleaf (k1, r1) (get_Some_elem _ _ _ Hg1)).
Qed.

Lemma chain_last_leaf leaf chain :
  ODict.get routes (id leaf) = Some leaf ->
  getRouteMatches routes (id leaf) = Ok chain ->
  Route leaf ∈ chain /\ last chain = Some (Route leaf).
Proof.
  intros Hget Hres.
  destruct (wf_chain_own _ Hwf _ _ _ Hget Hres) as (own & _ & ->).
  rewrite fmap_cons, reverse_cons, fmap_app. cbn [fmap list_fmap snd].
  split; [|by rewrite last_snoc]. apply elem_of_app. right. left.
Qed.


(** The chain of a route of the manifest, as routes: their ids are
    pairwise distinct. *)
Lemma chain_ids_NoDup k r (chain : list ConfigRoute) :
  ODict.get routes k = Some r ->
  getRouteMatches routes k = Ok (Route <$> chain) ->
  NoDup (id <$> chain) /\
  Forall (fun r' => ODict.get routes (id r') = Some r') chain.
Proof.
  intros Hget Hres.
  destruct (wf_chain_own _ Hwf _ _ _ Hget Hres) as (own & Hw & Heq).
  apply (inj (fmap Route)) in Heq. subst chain.
  assert (Hall : Forall (fun e : string * ConfigRoute =>
                           ODict.get routes e.1 = Some e.2)
                   ((k, r) :: own)).
  { apply Forall_forall. intros [k' r'] Hin. cbn.
    assert (Hm : (k', Route r') ∈ asMatches ((k, r) :: own))
      by (apply elem_of_asMatches; by exists r').
    by destruct (Walk_routes _ _ _ _ _ _ Hw Hm). }
  split.
  - rewrite fmap_reverse, reverse_Permutation.
    replace (id <$> ((k, r) :: own).*2) with ((k, r) :: own).*1.
    + apply Walk_NoDup in Hw. by rewrite asMatches_keys in Hw.
    + rewrite <-list_fmap_compose. apply list_fmap_ext.
      intros i [k' r'] Hi. cbn. symmetry. apply (wf_get_id _ Hwf).
      rewrite Forall_forall in Hall.
      apply (Hall (k', r')). by eapply list_elem_of_lookup_2.
  - apply Forall_reverse, Forall_fmap. eapply Forall_impl; [exact Hall|].
    intros [k' r'] Hk'. cbn in *. by rewrite (wf_get_id _ Hwf _ _ Hk').
Qed.

End BundleFacts.



(** X5: in a well-formed manifest a leaf route is on no match chain but its
    own: a chain that holds it is the chain of its id. *)
Theorem leaf_route_only_on_its_own_chain
    (routes : RouteManifest) (leaf : ConfigRoute) (k : string)
    (chain : list Match) :
  WellFormed routes ->
  leaf ∈ getLeafRoutes routes ->
  getRouteMatches routes k = Ok chain ->
  Route leaf ∈ chain ->
  k = id leaf /\ last chain = Some (Route leaf).
Proof.
  intros Hwf Hleaf Hres Hin.
  pose proof (leaf_only_on_own_chain _ Hwf _ _ _ Hleaf Hres Hin) as ->.
  split; [done|]. pose proof (leaf_inv _ Hwf _ Hleaf) as Hget.
  by destruct (chain_last_leaf _ Hwf _ _ Hget Hres).
Qed.

Lemma leaf_route_only_on_its_own_chain_witness :
  "a" = id sampleA /\
  last [Route sampleRoot; Route sampleA] = Some (Route sampleA).
Proof.
  apply (leaf_route_only_on_its_own_chain sampleManifest sampleA "a"
           [Route sampleRoot; Route sampleA] sampleManifest_wf).
  - apply (bool_decide_unpack _). by vm_compute.
  - reflexivity.
  - apply (bool_decide_unpack _). by vm_compute.
Defined.







(** ** One bundle per leaf *)

Lemma firstOccurrences_NoDup l : forall seen,
  NoDup l -> (forall x, x ∈ l -> x ∉ seen) -> firstOccurrences seen l = l.
Proof.
  induction l as [|k l IH]; intros seen Hnd Hseen; [done|].
  apply NoDup_cons in Hnd as [Hk Hnd]. cbn [firstOccurrences].
  rewrite decide_False by (apply Hseen; left). f_equal. apply IH; [done|].
  intros x Hx. rewrite not_elem_of_cons. split.
  - intros ->. done.
  - apply Hseen. by right.
Qed.

Lemma chainsOf_unique (keyed : list (string * list Match)) d c :
  NoDup keyed.*1 -> (d, c) ∈ keyed -> chainsOf keyed d = c.
Proof.
  unfold chainsOf. induction keyed as [|[d' c'] keyed IH]; intros Hnd Hin.
  - by apply elem_of_nil in Hin.
  - rewrite fmap_cons in Hnd. apply NoDup_cons in Hnd as [Hd Hnd].
    rewrite filter_cons. cbn [fst] in *.
    apply elem_of_cons in Hin as [Heq|Hin].
    + simplify_eq. rewrite decide_True by done. rewrite fmap_cons.
      cbn [concat snd]. fold (chainsOf keyed d').
      rewrite chainsOf_absent by done. by rewrite app_nil_r.
    + rewrite decide_False; [by apply IH|]. intros ->. apply Hd.
      apply list_elem_of_fmap. by exists (d, c).
Qed.

Lemma mergeMatches_fresh (l : list ConfigRoute) : forall o : JSObject.t Match,
  NoDup (ODict.keys (JSObject.props o) ++ (id <$> l)) ->
  "__proto__" ∉ id <$> l ->
  mergeMatches o (Route <$> l)
  = JSObject.mk (JSObject.props o ++ chainEntries l) (JSObject.proto o).
Proof.
  unfold mergeMatches, chainEntries.
  induction l as [|r l IH]; intros o Hnd Hno; cbn [foldl fmap list_fmap].
  - rewrite app_nil_r. by destruct o.
  - rewrite fmap_cons in Hnd. apply NoDup_app in Hnd as (Hd & Hdis & Hl).
    apply NoDup_cons in Hl as [Hr Hl].
    rewrite fmap_cons, not_elem_of_cons in Hno. destruct Hno as [Hne Hno].
    assert (Hfresh : id r ∉ ODict.keys (JSObject.props o)).
    { intros Hin. apply (Hdis _ Hin). left. }
    unfold JSObject.assign at 2. cbn [matchKey matchId propertyKey].
    rewrite decide_False by (intros [? _]; done).
    rewrite set_snoc by done. rewrite IH; cbn [JSObject.props JSObject.proto].
    + by rewrite <-app_assoc.
    + unfold ODict.keys. rewrite fmap_app. cbn [fmap list_fmap fst].
      rewrite <-app_assoc. cbn [app]. apply NoDup_app. split_and!; [done| |].
      * intros x Hx [->|Hin]%elem_of_cons; [done|].
        apply (Hdis _ Hx). by right.
      * by apply NoDup_cons.
    + done.
Qed.

Lemma zip_with_fmap_r {A B B' C} (g : A -> B' -> C) (h : B -> B')
    (l : list A) : forall k : list B,
  zip_with g l (h <$> k) = zip_with (fun a b => g a (h b)) l k.
Proof.
  induction l as [|a l IH]; intros [|b k]; try done.
  cbn [zip_with fmap list_fmap]. f_equal. apply IH.
Qed.

(** X9: on a well-formed manifest without the id [__proto__], when the
    classification function gives every leaf a key of its own, there is
    one bundle per leaf, in the order of the leaves, and the routes of each
    bundle are those of the leaf's match chain, each under its id, created
    root first; they are enumerated in that order when no id of the chain
    is an array index. *)
Theorem getServerBundles_one_bundle_per_leaf
    (cfg : RPC.t) (f : BundleClassifier) (chains : list (list ConfigRoute)) :
  WellFormed (RPC.routes cfg) ->
  "__proto__" ∉ ODict.keys (RPC.routes cfg) ->
  RPC.serverBundleDirectory cfg = Some f ->
  Forall2 (fun leaf chain =>
             getRouteMatches (RPC.routes cfg) (id leaf) = Ok (Route <$> chain))
    (getLeafRoutes (RPC.routes cfg)) chains ->
  NoDup (zip_with (fun leaf chain =>
                     path.join (RPC.serverBuildDirectory cfg)
                       (f leaf (Route <$> chain)))
           (getLeafRoutes (RPC.routes cfg)) chains) ->
  getServerBundles cfg =
  Ok (zip_with (fun leaf chain =>
                  SBC.mk (JSObject.mk (chainEntries chain) None)
                    (path.join (RPC.serverBuildDirectory cfg)
                       (f leaf (Route <$> chain))))
        (getLeafRoutes (RPC.routes cfg)) chains) /\
  Forall (fun chain =>
            Forall (fun r => JSObject.arrayIndex (id r) = None) chain ->
            JSObject.enumerate (chainEntries chain) = chainEntries chain)
    chains.
Proof.
  intros Hwf Hnoproto Hf Hall Hnd. split.
  2:{ apply Forall_forall. intros chain _ Hno. apply enumerate_no_index.
      unfold chainEntries. by apply Forall_fmap. }
  assert (Hall' : Forall2 (fun leaf chain =>
                    getRouteMatches (RPC.routes cfg) (id leaf) = Ok chain)
                    (getLeafRoutes (RPC.routes cfg))
                    ((fun c : list ConfigRoute => Route <$> c) <$> chains)).
  { by apply Forall2_fmap_r. }
  rewrite (getServerBundles_grouped _ _ _ Hf Hall'). f_equal.
  set (keyed := keyedLeaves (RPC.serverBuildDirectory cfg) f
                  (getLeafRoutes (RPC.routes cfg)) ((fun c : list ConfigRoute => Route <$> c) <$> chains)).
  assert (Hkeyed : keyed =
            zip_with (fun leaf chain =>
                        (path.join (RPC.serverBuildDirectory cfg)
                           (f leaf (Route <$> chain)), Route <$> chain))
              (getLeafRoutes (RPC.routes cfg)) chains).
  { unfold keyed, keyedLeaves. by rewrite zip_with_fmap_r. }
  assert (Hkeys : keyed.*1 =
            zip_with (fun leaf chain =>
                        path.join (RPC.serverBuildDirectory cfg)
                          (f leaf (Route <$> chain)))
              (getLeafRoutes (RPC.routes cfg)) chains).
  { rewrite Hkeyed. clear.
    generalize (getLeafRoutes (RPC.routes cfg)) as leaves. intros leaves.
    revert chains. induction leaves as [|leaf leaves IH]; intros [|c cs];
      try done.
    cbn [zip_with fmap list_fmap fst]. f_equal. apply IH. }
  rewrite <-Hkeys in Hnd. unfold groupBundles.
  rewrite firstOccurrences_NoDup;
    [|done|intros; apply not_elem_of_nil].
  assert (Hbundle : forall d c, (d, Route <$> c) ∈ keyed ->
            bundleOf keyed d = SBC.mk (JSObject.mk (chainEntries c) None) d).
  { intros d c Hin. unfold bundleOf.
    rewrite (chainsOf_unique _ _ (Route <$> c)) by done.
    destruct (keyedLeaves_inv _ _ _ _ _ _ _ Hall' Hin) as (leaf & Hl & Hc & _).
    pose proof (leaf_inv _ Hwf _ Hl) as Hget.
    destruct (chain_ids_NoDup _ Hwf _ _ _ Hget Hc) as [Hids Hroutes].
    rewrite mergeMatches_fresh; [done|done|].
    intros (r & Hr & Hin')%list_elem_of_fmap.
    rewrite Forall_forall in Hroutes. apply Hnoproto, get_is_Some_keys.
    rewrite Hr. by eexists; apply Hroutes. }
  rewrite <-list_fmap_compose.
  assert (Hgen : forall (K : list (string * list Match))
                   (leaves : list ConfigRoute)
                   (cs : list (list ConfigRoute)),
            (forall d c,
               (d, Route <$> c)
               ∈ zip_with (fun leaf chain =>
                             (path.join (RPC.serverBuildDirectory cfg)
                                (f leaf (Route <$> chain)), Route <$> chain))
                   leaves cs ->
               bundleOf K d = SBC.mk (JSObject.mk (chainEntries c) None) d) ->
            (bundleOf K ∘ fst)
              <$> zip_with (fun leaf chain =>
                              (path.join (RPC.serverBuildDirectory cfg)
                                 (f leaf (Route <$> chain)), Route <$> chain))
                    leaves cs
            = zip_with (fun leaf chain =>
                          SBC.mk (JSObject.mk (chainEntries chain) None)
                            (path.join (RPC.serverBuildDirectory cfg)
                               (f leaf (Route <$> chain))))
                leaves cs).
  { intros K leaves.
    induction leaves as [|leaf leaves IH]; intros [|c cs] Hb; try done.
    cbn [zip_with fmap list_fmap]. f_equal.
    - cbn. apply Hb. cbn [zip_with]. left.
    - apply IH. intros d c' Hin. apply Hb. cbn [zip_with]. by right. }
  rewrite <-(Hgen keyed).
  - by rewrite <-Hkeyed.
  - intros d c Hin. apply Hbundle. by rewrite Hkeyed.
Qed.

Lemma getServerBundles_one_bundle_per_leaf_witness :
  getServerBundles (sampleConfig (Some perLeafClassifier)) =
  Ok (zip_with (fun leaf chain =>
                  SBC.mk (JSObject.mk (chainEntries chain) None)
                    (path.join
                       (RPC.serverBuildDirectory
                          (sampleConfig (Some perLeafClassifier)))
                       (perLeafClassifier leaf (Route <$> chain))))
        (getLeafRoutes (RPC.routes (sampleConfig (Some perLeafClassifier))))
        [[sampleRoot; sampleA]; [sampleRoot; sampleB]]) /\
  Forall (fun chain =>
            Forall (fun r => JSObject.arrayIndex (id r) = None) chain ->
            JSObject.enumerate (chainEntries chain) = chainEntries chain)
    [[sampleRoot; sampleA]; [sampleRoot; sampleB]].
Proof.
  apply (getServerBundles_one_bundle_per_leaf
           (sampleConfig (Some perLeafClassifier)) perLeafClassifier
           [[sampleRoot; sampleA]; [sampleRoot; sampleB]]).
  - exact sampleManifest_wf.
  - apply (bool_decide_unpack _). by vm_compute.
  - reflexivity.
  - repeat constructor.
  - apply (bool_decide_unpack _). by vm_compute.
Defined.

(** ** When the bundles are returned *)

Lemma assignLeaves_Ok_inv routes dir f leaves : forall sb sb',
  assignLeaves routes dir f sb leaves = Ok sb' ->
  Forall (fun leaf => exists chain, getRouteMatches routes (id leaf) = Ok chain)
    leaves.
Proof.
  induction leaves as [|leaf leaves IH]; intros sb sb' Hres; [constructor|].
  cbn [assignLeaves] in Hres. unfold assignLeaf in Hres.
  destruct (getRouteMatches routes (id leaf)) as [chain|k|] eqn:Hc;
    cbn [obind] in Hres; [|done|done].
  constructor; [by eexists | by eapply IH].
Qed.

Lemma Forall_exists_Forall2 {A B} (R : A -> B -> Prop) (l : list A) :
  Forall (fun x => exists y, R x y) l -> exists l', Forall2 R l l'.
Proof.
  induction 1 as [|x l [y Hy] _ [l' IH]]; [by exists []|].
  exists (y :: l'). by constructor.
Qed.

(** X10: with a classification function, on every manifest, the bundles
    are returned exactly when the match chain of every leaf route is
    computed; routes that are on no leaf's chain are never looked at. *)
Theorem getServerBundles_returns_iff_leaf_chains
    (cfg : RPC.t) (f : BundleClassifier) :
  RPC.serverBundleDirectory cfg = Some f ->
  ((exists bundles, getServerBundles cfg = Ok bundles) <->
   Forall (fun leaf =>
             exists chain,
               getRouteMatches (RPC.routes cfg) (id leaf) = Ok chain)
     (getLeafRoutes (RPC.routes cfg))).
Proof.
  intros Hf. split.
  - intros [bundles Hres]. unfold getServerBundles in Hres. rewrite Hf in Hres.
    destruct (assignLeaves (RPC.routes cfg) (RPC.serverBuildDirectory cfg) f
                [] (getLeafRoutes (RPC.routes cfg))) as [sb|k|] eqn:Ha;
      [|done|done].
    by eapply assignLeaves_Ok_inv.
  - intros [chains Hall]%Forall_exists_Forall2. eexists.
    by apply getServerBundles_grouped.
Qed.

Lemma getServerBundles_returns_iff_leaf_chains_witness :
  (exists bundles,
     getServerBundles (sampleConfig (Some perLeafClassifier)) = Ok bundles) <->
  Forall (fun leaf =>
            exists chain, getRouteMatches sampleManifest (id leaf) = Ok chain)
    (getLeafRoutes sampleManifest).
Proof.
  apply (getServerBundles_returns_iff_leaf_chains
           (sampleConfig (Some perLeafClassifier)) perLeafClassifier).
  reflexivity.
Defined.

(** ** The id [__proto__] *)

(** X17: with a classification function, on every manifest (every leaf's
    chain being computed), the routes of a bundle hold under every key but
    [__proto__] the last match with that key among the chains of the leaves
    of the bundle; a match whose id is [__proto__] never becomes a route of
    the bundle: the last such match is made the prototype of the routes. *)
Theorem getServerBundles_proto_id_sets_prototype
    (cfg : RPC.t) (f : BundleClassifier) (chains : list (list Match)) :
  RPC.serverBundleDirectory cfg = Some f ->
  Forall2 (fun leaf chain =>
             getRouteMatches (RPC.routes cfg) (id leaf) = Ok chain)
    (getLeafRoutes (RPC.routes cfg)) chains ->
  let keyed :=
    zip_with (fun leaf chain =>
                (path.join (RPC.serverBuildDirectory cfg) (f leaf chain),
                 chain)) (getLeafRoutes (RPC.routes cfg)) chains in
  exists bundles,
    getServerBundles cfg = Ok bundles /\
    forall b, b ∈ bundles ->
      let merged := chainsOf keyed (SBC.serverBuildDirectory b) in
      JSObject.get (SBC.routes b) "__proto__" = None /\
      JSObject.proto (SBC.routes b) = lastUnder merged "__proto__" /\
      (forall i, i ≠ "__proto__" ->
         JSObject.get (SBC.routes b) i = lastUnder merged i).
Proof.
  intros Hf Hall keyed. exists (groupBundles keyed).
  split; [by apply getServerBundles_grouped|].
  intros b (d & -> & Hd)%list_elem_of_fmap.
  cbn [bundleOf SBC.serverBuildDirectory SBC.routes].
  destruct (mergeMatches_empty (chainsOf keyed d)) as (Hget & Hp & _).
  split_and!.
  - by rewrite Hget, decide_True.
  - done.
  - intros i Hi. by rewrite Hget, decide_False.
Qed.

Lemma getServerBundles_proto_id_sets_prototype_witness :
  let keyed :=
    zip_with (fun leaf chain =>
                (path.join (RPC.serverBuildDirectory protoConfig)
                   (sharedClassifier leaf chain), chain))
      (getLeafRoutes (RPC.routes protoConfig)) [[Route protoRoute]] in
  exists bundles,
    getServerBundles protoConfig = Ok bundles /\
    forall b, b ∈ bundles ->
      let merged := chainsOf keyed (SBC.serverBuildDirectory b) in
      JSObject.get (SBC.routes b) "__proto__" = None /\
      JSObject.proto (SBC.routes b) = lastUnder merged "__proto__" /\
      (forall i, i ≠ "__proto__" ->
         JSObject.get (SBC.routes b) i = lastUnder merged i).
Proof.
  apply (getServerBundles_proto_id_sets_prototype protoConfig
           sharedClassifier [[Route protoRoute]]).
  - reflexivity.
  - repeat constructor.
Defined.

(** ** What a build does and never does *)

Lemma promiseAll_settlements w launched order : forall settled tr,
  exists js,
    (promiseAll w launched settled order tr).1
      = tr ++ settledTrace w launched js /\
    js `sublist_of` order /\ NoDup js /\
    forall j, j ∈ js -> (j ∉ settled) /\ j < length launched.
Proof.
  assert (Hnil : forall (tr : list Event) (order : list nat) (settled : gset nat),
            exists js, tr = tr ++ settledTrace w launched js /\
              js `sublist_of` order /\ NoDup js /\
              forall j, j ∈ js -> (j ∉ settled) /\ j < length launched).
  { intros tr o s. exists []. unfold settledTrace. rewrite fmap_nil, app_nil_r.
    split_and!; [done | apply sublist_nil_l | constructor |].
    intros j Hj. by apply elem_of_nil in Hj. }
  induction order as [|i order IH]; intros settled tr; cbn [promiseAll].
  - destruct (decide (size settled = length launched)); apply Hnil.
  - destruct (decide (size settled = length launched)); [apply Hnil|].
    destruct (launched !! i) as [c|] eqn:Hc.
    2:{ destruct (IH settled tr) as (js & ? & ? & ? & ?). exists js.
        split_and!; [done | by apply sublist_cons | done | done]. }
    destruct (decide (i ∈ settled)) as [Hi|Hi].
    { destruct (IH settled tr) as (js & ? & ? & ? & ?). exists js.
      split_and!; [done | by apply sublist_cons | done | done]. }
    unfold abind at 1. unfold settle. cbn [opError].
    destruct (viteBuildError w (Some c)) as [message|] eqn:Herr.
    + unfold abind, emit, throw. cbn [fst]. exists [i]. split_and!.
      * unfold settledTrace. by rewrite fmap_cons, fmap_nil, Hc, Herr.
      * apply sublist_skip, sublist_nil_l.
      * apply NoDup_singleton.
      * intros j ->%list_elem_of_singleton.
        split; [done | by eapply lookup_lt_Some].
    + unfold emit at 1.
      destruct (IH ({[i]} ∪ settled) (tr ++ [Settled (ViteBuild (Some c)) None]))
        as (js & -> & Hsub & Hnd & Hjs).
      exists (i :: js). split_and!.
      * unfold settledTrace. by rewrite fmap_cons, Hc, Herr, <-app_assoc.
      * by apply sublist_skip.
      * apply NoDup_cons. split; [|done]. intros Hin.
        destruct (Hjs i Hin) as [Hn _]. apply Hn, elem_of_union. left.
        by apply elem_of_singleton.
      * intros j [->|Hj]%elem_of_cons.
        -- split; [done | by eapply lookup_lt_Some].
        -- destruct (Hjs j Hj) as [Hn ?]. split; [|done]. intros Hs.
           apply Hn, elem_of_union. by right.
Qed.

Lemma promiseAll_status_cases w launched order : forall settled tr,
  let st := (promiseAll w launched settled order tr).2 in
  st = Fulfilled tt \/ st = Pending \/
  exists c message,
    c ∈ launched /\ viteBuildError w (Some c) = Some message /\
    st = Rejected (OpError (ViteBuild (Some c)) message).
Proof.
  induction order as [|i order IH]; intros settled tr; cbn [promiseAll].
  - destruct (decide (size settled = length launched)); cbn; auto.
  - destruct (decide (size settled = length launched)); [cbn; auto|].
    destruct (launched !! i) as [c|] eqn:Hc; [|apply IH].
    destruct (decide (i ∈ settled)); [apply IH|].
    unfold abind at 1. unfold settle. cbn [opError].
    destruct (viteBuildError w (Some c)) as [message|] eqn:Herr.
    + unfold abind, emit, throw. cbn [snd]. right. right. exists c, message.
      split_and!; [by eapply list_elem_of_lookup_2 | done | done].
    + unfold emit at 1. apply IH.
Qed.

Lemma promiseAll_status_covered w launched order : forall settled tr,
  (forall j, j ∈ settled ->
     j < length launched /\
     forall c, launched !! j = Some c -> viteBuildError w (Some c) = None) ->
  (forall j, j < length launched -> j ∈ settled \/ j ∈ order) ->
  let st := (promiseAll w launched settled order tr).2 in
  (st = Fulfilled tt /\
   Forall (fun c => viteBuildError w (Some c) = None) launched) \/
  exists c message,
    c ∈ launched /\ viteBuildError w (Some c) = Some message /\
    st = Rejected (OpError (ViteBuild (Some c)) message).
Proof.
  assert (Hfull : forall settled : gset nat,
    (forall j, j ∈ settled ->
       j < length launched /\
       forall c, launched !! j = Some c -> viteBuildError w (Some c) = None) ->
    (forall j, j < length launched -> j ∈ settled) ->
    Forall (fun c => viteBuildError w (Some c) = None) launched).
  { intros settled Hset Hcov. apply Forall_forall. intros c Hc.
    apply list_elem_of_lookup in Hc as [j Hj].
    destruct (Hset j) as [_ Hok]; [|by eapply Hok].
    apply Hcov. by eapply lookup_lt_Some. }
  assert (Hsub : forall settled : gset nat,
    (forall j, j ∈ settled ->
       j < length launched /\
       forall c, launched !! j = Some c -> viteBuildError w (Some c) = None) ->
    settled ⊆ set_seq 0 (length launched)).
  { intros settled Hset j Hj. apply elem_of_set_seq.
    destruct (Hset j Hj) as [? _]. lia. }
  induction order as [|i order IH]; intros settled tr Hset Hcov;
    cbn [promiseAll].
  - assert (Hall : forall j, j < length launched -> j ∈ settled).
    { intros j Hj. destruct (Hcov j Hj) as [?|Hin]; [done|].
      by apply elem_of_nil in Hin. }
    rewrite decide_True.
    + left. split; [done | by eapply Hfull].
    + apply Nat.le_antisymm.
      * rewrite <-(size_set_seq (C:=gset nat) 0 (length launched)).
        by apply subseteq_size, Hsub.
      * rewrite <-(size_set_seq (C:=gset nat) 0 (length launched)) at 1.
        apply subseteq_size. intros j Hj%elem_of_set_seq. apply Hall. lia.
  - destruct (decide (size settled = length launched)) as [Hsize|Hsize].
    { left. split; [done|]. apply (Hfull settled Hset). intros j Hj.
      assert (Heq : settled ≡ set_seq 0 (length launched)).
      { apply set_subseteq_size_equiv; [by apply Hsub|].
        rewrite size_set_seq. lia. }
      apply Heq, elem_of_set_seq. lia. }
    destruct (launched !! i) as [c|] eqn:Hc.
    2:{ apply IH; [done|]. intros j Hj.
        destruct (Hcov j Hj) as [?|[->|?]%elem_of_cons]; auto.
        apply lookup_ge_None in Hc. lia. }
    destruct (decide (i ∈ settled)) as [Hi|Hi].
    { apply IH; [done|]. intros j Hj.
      destruct (Hcov j Hj) as [?|[->|?]%elem_of_cons]; auto. }
    unfold abind at 1. unfold settle. cbn [opError].
    destruct (viteBuildError w (Some c)) as [message|] eqn:Herr.
    + unfold abind, emit, throw. cbn [snd]. right. exists c, message.
      split_and!; [by eapply list_elem_of_lookup_2 | done | done].
    + unfold emit at 1. apply IH.
      * intros j [->%elem_of_singleton|Hj]%elem_of_union; [|by apply Hset].
        split; [by eapply lookup_lt_Some|]. intros c' Hc'. by simplify_eq.
      * intros j Hj. rewrite elem_of_union, elem_of_singleton.
        destruct (Hcov j Hj) as [?|[->|?]%elem_of_cons]; auto.
Qed.

(** X11: [build] ends the process exactly when the Remix plugin
    configuration is missing from the Vite configuration; the exit code is
    then 1 and nothing has been removed or built: the message on the
    console is the whole trace. *)
Theorem build_exits_only_without_plugin_config
    (w : World) (viteConfig : ViteConfig.t) :
  (forall code,
     (build w viteConfig []).2 = Exited code <->
     ViteConfig.remixPluginResolvedConfig viteConfig = None /\ code = 1) /\
  (ViteConfig.remixPluginResolvedConfig viteConfig = None ->
   (build w viteConfig []).1 =
   [ConsoleError "Remix Vite plugin not found in Vite config"]).
Proof.
  rewrite build_unfold. split.
  - intros code.
    destruct (ViteConfig.remixPluginResolvedConfig viteConfig) as [cfg|].
    + split; [|by intros [? _]]. intros Hexit. exfalso.
      destruct (guardError w viteConfig cfg); [done|].
      destruct (viteBuildError w None); [done|].
      destruct (getServerBundles cfg) as [bundles|k|]; [|done|done].
      destruct (promiseAll_status_cases w bundles (settleOrder w) ∅
                  (guardTrace w viteConfig cfg ++ clientTrace w ++
                   launchTrace bundles))
        as [Hs|[Hs|(c & m & _ & _ & Hs)]]; rewrite Hs in Hexit; done.
    + cbn [snd]. split; [intros [= <-]; done | intros [_ ->]; done].
  - by intros ->.
Qed.

Lemma build_exits_only_without_plugin_config_witness :
  (forall code,
     (build quietWorld (ViteConfig.mk None None) []).2 = Exited code <->
     ViteConfig.remixPluginResolvedConfig (ViteConfig.mk None None) = None /\
     code = 1) /\
  (ViteConfig.remixPluginResolvedConfig (ViteConfig.mk None None) = None ->
   (build quietWorld (ViteConfig.mk None None) []).1 =
   [ConsoleError "Remix Vite plugin not found in Vite config"]).
Proof.
  exact (build_exits_only_without_plugin_config quietWorld
           (ViteConfig.mk None None)).
Defined.

(** X12: when guard and client build succeed and the bundles are returned,
    every bundle's server build is started once, in the order of the
    bundles, before any server build is seen to settle; the settlements
    that follow are those of distinct launched builds, in the order in which
    they settle. *)
Theorem build_launches_every_bundle_once
    (w : World) (viteConfig : ViteConfig.t) (cfg : RPC.t)
    (serverBundles : list SBC.t) :
  ViteConfig.remixPluginResolvedConfig viteConfig = Some cfg ->
  guardError w viteConfig cfg = None ->
  viteBuildError w None = None ->
  getServerBundles cfg = Ok serverBundles ->
  exists js,
    (build w viteConfig []).1 =
      guardTrace w viteConfig cfg ++ clientTrace w ++
      launchTrace serverBundles ++ settledTrace w serverBundles js /\
    js `sublist_of` settleOrder w /\ NoDup js /\
    Forall (fun j => j < length serverBundles) js.
Proof.
  intros Hcfg Hg Hc Hb. rewrite build_unfold, Hcfg, Hg, Hc, Hb.
  destruct (promiseAll_settlements w serverBundles (settleOrder w) ∅
              (guardTrace w viteConfig cfg ++ clientTrace w ++
               launchTrace serverBundles)) as (js & -> & Hsub & Hnd & Hjs).
  exists js. rewrite <-!app_assoc. split_and!; [done..|].
  apply Forall_forall. intros j Hj. by destruct (Hjs j Hj).
Qed.

Lemma build_launches_every_bundle_once_witness :
  exists js,
    (build oneFailsWorld perLeafViteConfig []).1 =
      guardTrace oneFailsWorld perLeafViteConfig
        (sampleConfig (Some perLeafClassifier)) ++
      clientTrace oneFailsWorld ++
      launchTrace [bundleA; bundleB] ++
      settledTrace oneFailsWorld [bundleA; bundleB] js /\
    js `sublist_of` settleOrder oneFailsWorld /\ NoDup js /\
    Forall (fun j => j < length [bundleA; bundleB]) js.
Proof.
  apply (build_launches_every_bundle_once oneFailsWorld perLeafViteConfig
           (sampleConfig (Some perLeafClassifier)) [bundleA; bundleB]);
    reflexivity.
Defined.

(** X13: when guard and client build succeed, the bundles are returned and
    every launched server build settles, [build] is fulfilled exactly when
    every server build succeeds; otherwise it is rejected with the error of
    one of the failing server builds.  A failing server build is never
    passed over in silence. *)
Theorem build_fulfilled_iff_every_server_build_succeeds
    (w : World) (viteConfig : ViteConfig.t) (cfg : RPC.t)
    (serverBundles : list SBC.t) :
  ViteConfig.remixPluginResolvedConfig viteConfig = Some cfg ->
  guardError w viteConfig cfg = None ->
  viteBuildError w None = None ->
  getServerBundles cfg = Ok serverBundles ->
  (forall j, j < length serverBundles -> j ∈ settleOrder w) ->
  ((build w viteConfig []).2 = Fulfilled tt /\
   Forall (fun c => viteBuildError w (Some c) = None) serverBundles) \/
  (exists c message,
     c ∈ serverBundles /\ viteBuildError w (Some c) = Some message /\
     (build w viteConfig []).2
       = Rejected (OpError (ViteBuild (Some c)) message)).
Proof.
  intros Hcfg Hg Hc Hb Hcov. rewrite build_unfold, Hcfg, Hg, Hc, Hb.
  apply promiseAll_status_covered.
  - intros j Hj. by apply not_elem_of_empty in Hj.
  - intros j Hj. right. by apply Hcov.
Qed.

Lemma build_fulfilled_iff_every_server_build_succeeds_witness :
  ((build oneFailsWorld perLeafViteConfig []).2 = Fulfilled tt /\
   Forall (fun c => viteBuildError oneFailsWorld (Some c) = None)
     [bundleA; bundleB]) \/
  (exists c message,
     c ∈ [bundleA; bundleB] /\
     viteBuildError oneFailsWorld (Some c) = Some message /\
     (build oneFailsWorld perLeafViteConfig []).2
       = Rejected (OpError (ViteBuild (Some c)) message)).
Proof.
  apply (build_fulfilled_iff_every_server_build_succeeds oneFailsWorld
           perLeafViteConfig (sampleConfig (Some perLeafClassifier))
           [bundleA; bundleB]); try reflexivity.
  intros j Hj. cbn in Hj. apply (bool_decide_unpack _).
  destruct j as [|[|j]]; [by vm_compute | by vm_compute | lia].
Defined.

Lemma filter_remove_phase (l : list Event) p :
  Forall (fun ev => phase ev = p) l ->
  filter (fun ev => isRemoveEvent ev) l = if decide (p = 1) then l else [].
Proof.
  induction 1 as [|ev l Hev Hl IH]; [by case_decide|].
  rewrite filter_cons, IH.
  destruct ev as [m|[d|[c|]]|[d|[c|]] e]; cbn in Hev; subst p; cbn;
    by repeat case_decide.
Qed.

(** X14: the only directory a build removes is the server build directory
    of the plugin configuration, and only when the guard decides so: the
    removal and its settlement are then the first two events of the trace,
    before the client build and every server build, and no other event of
    the trace is a removal. *)
Theorem build_removes_only_server_build_directory
    (w : World) (viteConfig : ViteConfig.t) (cfg : RPC.t) :
  ViteConfig.remixPluginResolvedConfig viteConfig = Some cfg ->
  (exists later,
     (build w viteConfig []).1 =
     (if shouldClean (cwd w) (ViteConfig.emptyOutDir viteConfig) cfg
      then [Invoked (Remove (RPC.serverBuildDirectory cfg));
            Settled (Remove (RPC.serverBuildDirectory cfg))
              (removeError w (RPC.serverBuildDirectory cfg))]
      else []) ++ later /\
     Forall (fun ev => isRemoveEvent ev = false) later) /\
  (forall i d,
     (build w viteConfig []).1 !! i = Some (Invoked (Remove d)) ->
     i = 0 /\ d = RPC.serverBuildDirectory cfg /\
     shouldClean (cwd w) (ViteConfig.emptyOutDir viteConfig) cfg = true) /\
  filter (fun ev => isRemoveEvent ev) (build w viteConfig []).1
    = guardTrace w viteConfig cfg.
Proof.
  intros Hcfg.
  assert (Hshape : exists later,
            (build w viteConfig []).1 = guardTrace w viteConfig cfg ++ later /\
            Forall (fun ev => phase ev = 2 \/ phase ev = 3) later).
  { destruct (build_cases w viteConfig)
      as [[Hn _]|(cfg' & Hcfg' & Hcases)]; [congruence|].
    assert (cfg' = cfg) as -> by congruence.
    destruct Hcases as [(m & Hg & Hb)|[(Hg & m & Hc & Hb)|
                          (Hg & Hc & server & st & Hb & Hs)]]; rewrite Hb;
      cbn [fst].
    - exists []. by rewrite app_nil_r.
    - exists (clientTrace w). split; [done|].
      eapply Forall_impl; [apply clientTrace_phase|]. intros ev ->. by left.
    - exists (clientTrace w ++ server). split; [done|]. apply Forall_app. split.
      + eapply Forall_impl; [apply clientTrace_phase|]. intros ev ->. by left.
      + eapply Forall_impl; [exact Hs|]. intros ev ->. by right. }
  destruct Hshape as (later & Htr & Hlater).
  assert (Hno : Forall (fun ev => isRemoveEvent ev = false) later).
  { eapply Forall_impl; [exact Hlater|].
    intros [m|[d|[c|]]|[d|[c|]] e]; cbn; intros [?|?]; done. }
  split_and!.
  - exists later. split; [|done]. rewrite Htr. unfold guardTrace.
    by destruct (shouldClean (cwd w) (ViteConfig.emptyOutDir viteConfig) cfg).
  - intros i d Hi. rewrite Htr in Hi.
    apply early_events in Hi as [(-> & [= ->] & Hsc & _)|[(_ & ? & _)|
                                  (j & _ & Hj)]]; [done|done|].
    rewrite Forall_forall in Hno.
    apply list_elem_of_lookup_2, Hno in Hj. done.
  - rewrite Htr, filter_app.
    rewrite (filter_remove_phase _ 1 (guardTrace_phase w viteConfig cfg)).
    rewrite decide_True by done.
    replace (filter (fun ev => isRemoveEvent ev) later) with (@nil Event);
      [by rewrite app_nil_r|].
    symmetry. clear Htr Hlater.
    induction Hno as [|ev l Hev Hl IH]; [done|].
    rewrite filter_cons, Hev. case_decide as Hf; [by destruct Hf | done].
Qed.

Lemma build_removes_only_server_build_directory_witness :
  (exists later,
     (build bothFailWorld perLeafViteConfig []).1 =
     (if shouldClean (cwd bothFailWorld)
           (ViteConfig.emptyOutDir perLeafViteConfig)
           (sampleConfig (Some perLeafClassifier))
      then [Invoked (Remove (RPC.serverBuildDirectory
                               (sampleConfig (Some perLeafClassifier))));
            Settled (Remove (RPC.serverBuildDirectory
                               (sampleConfig (Some perLeafClassifier))))
              (removeError bothFailWorld
                 (RPC.serverBuildDirectory
                    (sampleConfig (Some perLeafClassifier))))]
      else []) ++ later /\
     Forall (fun ev => isRemoveEvent ev = false) later) /\
  (forall i d,
     (build bothFailWorld perLeafViteConfig []).1 !! i
     = Some (Invoked (Remove d)) ->
     i = 0 /\
     d = RPC.serverBuildDirectory (sampleConfig (Some perLeafClassifier)) /\
     shouldClean (cwd bothFailWorld)
       (ViteConfig.emptyOutDir perLeafViteConfig)
       (sampleConfig (Some perLeafClassifier)) = true) /\
  filter (fun ev => isRemoveEvent ev)
    (build bothFailWorld perLeafViteConfig []).1
    = guardTrace bothFailWorld perLeafViteConfig
        (sampleConfig (Some perLeafClassifier)).
Proof.
  apply (build_removes_only_server_build_directory bothFailWorld
           perLeafViteConfig (sampleConfig (Some perLeafClassifier))).
  reflexivity.
Defined.

(** X15: without a classification function no match chain is computed:
    on every manifest, also one with missing parents or cycles, the one
    bundle is the whole manifest with the server build directory, and a
    build whose guard and client build succeed starts exactly that server
    build and ends fulfilled, pending, or rejected with its error. *)
Theorem build_single_bundle_on_any_manifest
    (w : World) (viteConfig : ViteConfig.t) (cfg : RPC.t) :
  ViteConfig.remixPluginResolvedConfig viteConfig = Some cfg ->
  RPC.serverBundleDirectory cfg = None ->
  guardError w viteConfig cfg = None ->
  viteBuildError w None = None ->
  let whole := SBC.mk (manifestObject (RPC.routes cfg))
                 (RPC.serverBuildDirectory cfg) in
  getServerBundles cfg = Ok [whole] /\
  (exists js,
     (build w viteConfig []).1 =
       guardTrace w viteConfig cfg ++ clientTrace w ++
       [Invoked (ViteBuild (Some whole))] ++ settledTrace w [whole] js /\
     NoDup js /\ Forall (fun j => j = 0) js) /\
  ((build w viteConfig []).2 = Fulfilled tt \/
   (build w viteConfig []).2 = Pending \/
   exists message,
     viteBuildError w (Some whole) = Some message /\
     (build w viteConfig []).2
       = Rejected (OpError (ViteBuild (Some whole)) message)).
Proof.
  intros Hcfg Hf Hg Hc whole.
  assert (Hb : getServerBundles cfg = Ok [whole]).
  { unfold getServerBundles. by rewrite Hf. }
  split; [done|]. rewrite build_unfold, Hcfg, Hg, Hc, Hb. split.
  - destruct (promiseAll_settlements w [whole] (settleOrder w) ∅
                (guardTrace w viteConfig cfg ++ clientTrace w ++
                 launchTrace [whole])) as (js & -> & Hsub & Hnd & Hjs).
    exists js. rewrite <-!app_assoc. split_and!; [done..|].
    apply Forall_forall. intros j Hj. destruct (Hjs j Hj) as [_ Hlt].
    cbn in Hlt. lia.
  - destruct (promiseAll_status_cases w [whole] (settleOrder w) ∅
                (guardTrace w viteConfig cfg ++ clientTrace w ++
                 launchTrace [whole]))
      as [Hs|[Hs|(c & m & Hin & Herr & Hs)]]; [by left | by right; left |].
    right. right. apply list_elem_of_singleton in Hin as ->. by exists m.
Qed.

Lemma build_single_bundle_on_any_manifest_witness :
  let whole := SBC.mk (manifestObject (RPC.routes wholeConfig))
                 (RPC.serverBuildDirectory wholeConfig) in
  getServerBundles wholeConfig = Ok [whole] /\
  (exists js,
     (build quietWorld (ViteConfig.mk None (Some wholeConfig)) []).1 =
       guardTrace quietWorld (ViteConfig.mk None (Some wholeConfig))
         wholeConfig ++
       clientTrace quietWorld ++
       [Invoked (ViteBuild (Some whole))] ++
       settledTrace quietWorld [whole] js /\
     NoDup js /\ Forall (fun j => j = 0) js) /\
  ((build quietWorld (ViteConfig.mk None (Some wholeConfig)) []).2
     = Fulfilled tt \/
   (build quietWorld (ViteConfig.mk None (Some wholeConfig)) []).2
     = Pending \/
   exists message,
     viteBuildError quietWorld (Some whole) = Some message /\
     (build quietWorld (ViteConfig.mk None (Some wholeConfig)) []).2
       = Rejected (OpError (ViteBuild (Some whole)) message)).
Proof.
  apply (build_single_bundle_on_any_manifest quietWorld
           (ViteConfig.mk None (Some wholeConfig)) wholeConfig);
    reflexivity.
Defined.

Lemma assignLeaves_overflow routes dir f leaf rest done :
  forall sb,
  Forall (fun l => exists chain, getRouteMatches routes (id l) = Ok chain)
    done ->
  getRouteMatches routes (id leaf) = InvalidArrayLength ->
  assignLeaves routes dir f sb (done ++ leaf :: rest) = InvalidArrayLength.
Proof.
  induction done as [|l done IH]; intros sb Hdone Hleaf;
    cbn [app assignLeaves]; unfold assignLeaf.
  - by rewrite Hleaf.
  - apply Forall_cons in Hdone as [[chain Hc] Hdone]. rewrite Hc.
    cbn [obind]. by apply IH.
Qed.

(** X16: with a classification function, when the parent links of a leaf
    route lead into a cycle (the leaves before it having their chains), the
    assignment of the bundles ends with the [RangeError] of the full array:
    a build whose guard and client build succeed is rejected with it after
    the client build, and no server build is started. *)
Theorem build_rejected_on_cycle_below_leaf
    (w : World) (viteConfig : ViteConfig.t) (cfg : RPC.t)
    (f : BundleClassifier) (done rest : list ConfigRoute)
    (leaf : ConfigRoute) :
  ViteConfig.remixPluginResolvedConfig viteConfig = Some cfg ->
  RPC.serverBundleDirectory cfg = Some f ->
  getLeafRoutes (RPC.routes cfg) = done ++ leaf :: rest ->
  Forall (fun l => exists chain,
            getRouteMatches (RPC.routes cfg) (id l) = Ok chain) done ->
  ReachesCycle (RPC.routes cfg) (id leaf) ->
  guardError w viteConfig cfg = None ->
  viteBuildError w None = None ->
  getServerBundles cfg = InvalidArrayLength /\
  build w viteConfig [] =
  (guardTrace w viteConfig cfg ++ clientTrace w, Rejected RangeError) /\
  forall c, Invoked (ViteBuild (Some c)) ∉ (build w viteConfig []).1.
Proof.
  intros Hcfg Hf Hleaves Hdone Hcycle Hg Hc.
  assert (Hb : getServerBundles cfg = InvalidArrayLength).
  { unfold getServerBundles. rewrite Hf, Hleaves.
    rewrite assignLeaves_overflow; [done|done|].
    by apply getRouteMatches_InvalidArrayLength_iff. }
  split; [done|]. rewrite build_unfold, Hcfg, Hg, Hc, Hb. split; [done|].
  intros c [Hin|Hin]%elem_of_app.
  - by apply (elem_of_phase _ _ _ (guardTrace_phase w viteConfig cfg)) in Hin.
  - by apply (elem_of_phase _ _ _ (clientTrace_phase w)) in Hin.
Qed.

Lemma build_rejected_on_cycle_below_leaf_witness :
  getServerBundles
    (RPC.mk cyclicManifest "/proj" "/proj/build/server"
       (Some perLeafClassifier)) = InvalidArrayLength /\
  build quietWorld
    (ViteConfig.mk None
       (Some (RPC.mk cyclicManifest "/proj" "/proj/build/server"
                (Some perLeafClassifier)))) [] =
  (guardTrace quietWorld
     (ViteConfig.mk None
        (Some (RPC.mk cyclicManifest "/proj" "/proj/build/server"
                 (Some perLeafClassifier))))
     (RPC.mk cyclicManifest "/proj" "/proj/build/server"
        (Some perLeafClassifier)) ++
   clientTrace quietWorld, Rejected RangeError) /\
  forall c,
    Invoked (ViteBuild (Some c))
      ∉ (build quietWorld
           (ViteConfig.mk None
              (Some (RPC.mk cyclicManifest "/proj" "/proj/build/server"
                       (Some perLeafClassifier)))) []).1.
Proof.
  apply (build_rejected_on_cycle_below_leaf quietWorld _ _ perLeafClassifier
           [] [] (mkRoute "z" (Some "x") "z.tsx")).
  - reflexivity.
  - reflexivity.
  - reflexivity.
  - constructor.
  - exists ["z"], "x". split.
    + econstructor; [|constructor]. split; [done|]. by eexists.
    + exists ["y"]. econstructor; [split; [done|]; by eexists|].
      econstructor; [split; [done|]; by eexists|]. constructor.
  - reflexivity.
  - reflexivity.
Defined.
